(** * mediabot: the Instagram link resolver (src/app/parser-instagram/index.ts)

    A shallow embedding of [computeForLink] and of its local helper
    [processMedia], together with the properties the specification states
    about them.

    The program works on untyped JSON: the page's embedded script payloads
    and the responses of two authenticated endpoints.  The embedding keeps
    that: values are JSON trees extended with [undefined], and every
    operator of the source (property access, truthiness, [===], [??], [||],
    [?.], template literals, [for ... of], spread, [Array.prototype.find])
    is a function on those trees that raises [TypeError] where JavaScript
    does. *)

From Stdlib Require Import String Ascii List ZArith Bool Arith Lia.
From Stdlib Require Import DecimalString Permutation.
Import ListNotations.
Local Open Scope string_scope.
Local Open Scope list_scope.
Set Warnings "-register-all".

(** ** JavaScript values *)

(** A JSON document after [JSON.parse], plus [undefined].  Numbers are the
    integer-valued ones; an object is the list of its own properties in
    insertion order, and a property is read at its first binding. *)
Inductive value : Type :=
| VUndef
| VNull
| VBool (b : bool)
| VNum (n : Z)
| VStr (s : string)
| VArr (items : list value)
| VObj (fields : list (string * value)).

(** What a [throw] carries: the runtime's [TypeError] and [RangeError], an
    [Error] built by the program with its message, or the rejection reason
    of an external call. *)
Inductive thrown : Type :=
| TypeError
| RangeError
| Error (message : string)
| Rejected (reason : value).

Inductive outcome (A : Type) : Type :=
| Ok (a : A)
| Throw (e : thrown).
Arguments Ok {A} a.
Arguments Throw {A} e.

Definition is_nullish (v : value) : bool :=
  match v with
  | VUndef | VNull => true
  | _ => false
  end.

(** ToBoolean. *)
Definition truthy (v : value) : bool :=
  match v with
  | VUndef | VNull => false
  | VBool b => b
  | VNum n => negb (Z.eqb n 0)
  | VStr s => negb (String.eqb s EmptyString)
  | VArr _ | VObj _ => true
  end.

(** [a ?? b] and [a || b]. *)
Definition nullish_or (a b : value) : value := if is_nullish a then b else a.
Definition or_else (a b : value) : value := if truthy a then a else b.

(** [a === b] for operands that come from two different JSON documents:
    primitives compare by value, two arrays or objects are never the same
    reference. *)
Definition strict_eq (a b : value) : bool :=
  match a, b with
  | VUndef, VUndef => true
  | VNull, VNull => true
  | VBool x, VBool y => Bool.eqb x y
  | VNum x, VNum y => Z.eqb x y
  | VStr x, VStr y => String.eqb x y
  | _, _ => false
  end.

(** Decimal rendering of an array index and of a number. *)
Definition nat_to_string (n : nat) : string :=
  NilZero.string_of_uint (Nat.to_uint n).
Definition Z_to_string (n : Z) : string :=
  NilZero.string_of_int (Z.to_int n).

(** An array index is written canonically: ["0"], ["1"], ["12"], never
    ["01"]. *)
Definition index_of_key (k : string) : option nat :=
  match NilZero.uint_of_string k with
  | Some u => let n := Nat.of_uint u in
              if String.eqb (nat_to_string n) k then Some n else None
  | None => None
  end.

Fixpoint own (fields : list (string * value)) (k : string) : value :=
  match fields with
  | [] => VUndef
  | (k', v) :: rest => if String.eqb k' k then v else own rest k
  end.

Definition char_at (s : string) (i : nat) : value :=
  match String.get i s with
  | Some c => VStr (String c EmptyString)
  | None => VUndef
  end.

(** [v[k]] and [v.k].  Own properties only: the names the program reads are
    field names of the site's API, none of which is a method of a built-in
    prototype. *)
Definition get (v : value) (k : string) : outcome value :=
  match v with
  | VUndef | VNull => Throw TypeError
  | VBool _ | VNum _ => Ok VUndef
  | VStr s =>
      match index_of_key k with
      | Some i => Ok (char_at s i)
      | None => if String.eqb k "length"
                then Ok (VNum (Z.of_nat (String.length s))) else Ok VUndef
      end
  | VArr items =>
      match index_of_key k with
      | Some i => Ok (nth i items VUndef)
      | None => if String.eqb k "length"
                then Ok (VNum (Z.of_nat (List.length items))) else Ok VUndef
      end
  | VObj fields => Ok (own fields k)
  end.

Fixpoint chars (s : string) : list value :=
  match s with
  | EmptyString => []
  | String c rest => VStr (String c EmptyString) :: chars rest
  end.

(** The iteration protocol behind [for ... of] and spread: arrays and
    strings are iterable, nothing else in a JSON document is. *)
Definition iterate (v : value) : outcome (list value) :=
  match v with
  | VArr items => Ok items
  | VStr s => Ok (chars s)
  | _ => Throw TypeError
  end.

(** ToString, as a template literal and a computed property key apply it. *)
Fixpoint toString (v : value) : string :=
  match v with
  | VUndef => "undefined"
  | VNull => "null"
  | VBool true => "true"
  | VBool false => "false"
  | VNum n => Z_to_string n
  | VStr s => s
  | VArr items =>
      (fix join (l : list value) : string :=
         match l with
         | [] => EmptyString
         | x :: rest =>
             let sx := match x with
                       | VUndef | VNull => EmptyString
                       | _ => toString x
                       end in
             match rest with
             | [] => sx
             | _ :: _ => (sx ++ "," ++ join rest)%string
             end
         end) items
  | VObj _ => "[object Object]"
  end.

(** Nesting depth of a document; bounds the recursion of [processMedia]. *)
Fixpoint depth (v : value) : nat :=
  match v with
  | VArr items =>
      S ((fix go (l : list value) : nat :=
            match l with
            | [] => 0
            | x :: rest => Nat.max (depth x) (go rest)
            end) items)
  | VObj fields =>
      S ((fix go (l : list (string * value)) : nat :=
            match l with
            | [] => 0
            | (_, x) :: rest => Nat.max (depth x) (go rest)
            end) fields)
  | _ => 0
  end.

(** ** Effects: state and exceptions *)

(** A computation over a mutable store [S] that returns or throws.  The
    store survives a throw, as a mutated array does. *)
Definition M (S A : Type) : Type := S -> outcome A * S.

Definition ret {S A} (a : A) : M S A := fun s => (Ok a, s).
Definition throw {S A} (e : thrown) : M S A := fun s => (Throw e, s).
Definition bind {S A B} (c : M S A) (k : A -> M S B) : M S B :=
  fun s => match c s with
           | (Ok a, s') => k a s'
           | (Throw e, s') => (Throw e, s')
           end.
Definition lift {S A} (o : outcome A) : M S A := fun s => (o, s).

Declare Scope js_scope.
Delimit Scope js_scope with js.
Notation "x <- c ;; k" := (bind c (fun x => k))
  (at level 61, c at next level, right associativity) : js_scope.
Notation "c ;;; k" := (bind c (fun _ => k))
  (at level 61, right associativity) : js_scope.
Local Open Scope js_scope.

(** [for (const x of xs) body(x)]. *)
Fixpoint for_each {S A} (xs : list A) (body : A -> M S unit) : M S unit :=
  match xs with
  | [] => ret tt
  | x :: rest => body x ;;; for_each rest body
  end.

(** ** The Media Normalizer *)

Inductive MediaType : Type := video | photo.

Record MediaDescriptor : Type := Descriptor { type : MediaType; url : value }.

(** [media.push(d)] on the array the closure captured. *)
Definition push (d : MediaDescriptor) : M (list MediaDescriptor) unit :=
  fun media => (Ok tt, media ++ [d]).

(** [processMedia], lines 225-241.  The first argument bounds the call
    depth; exhausting it is the engine's [RangeError]. *)
Fixpoint processMedia (fuel : nat) (item : value)
  : M (list MediaDescriptor) unit :=
  match fuel with
  | O => throw RangeError
  | S fuel' =>
      video_versions <- lift (get item "video_versions") ;;
      if truthy video_versions then
        first <- lift (get video_versions "0") ;;
        u <- lift (get first "url") ;;
        push (Descriptor video u)
      else
        image_versions2 <- lift (get item "image_versions2") ;;
        if truthy image_versions2 then
          candidates <- lift (get image_versions2 "candidates") ;;
          first <- lift (get candidates "0") ;;
          u <- lift (get first "url") ;;
          push (Descriptor photo u)
        else
          carousel_media <- lift (get item "carousel_media") ;;
          if truthy carousel_media then
            children <- lift (iterate carousel_media) ;;
            for_each children (processMedia fuel')
          else ret tt
  end.

(** Lines 223-245: a fresh [media] array, one [processMedia] call per raw
    record, each with room for the whole depth of its record. *)
Definition flatten (rawMedia : list value) : outcome (list MediaDescriptor) :=
  match for_each rawMedia (fun item => processMedia (S (depth item)) item) [] with
  | (Ok _, media) => Ok media
  | (Throw e, _) => Throw e
  end.

(** ** The Content Resolver *)

Module ResolvedContent.
Record t : Type := mk { title : value; url : value; media : list MediaDescriptor }.
End ResolvedContent.

(** What [computeForLink] takes from outside the file: the two searchers
    built by [makeSearcher] in utils/objectSearch.js, the page it opens and
    scrapes, the in-page [fetch], and lodash's [get].  The calls of
    [log.debug], and [sharedData] (line 142), which is only logged, are
    left out; so is the deferred [page.close()], whose failure
    [radash.defer] swallows. *)
Record World : Type := {
  (** [findPostData(details)], the matches in document order *)
  findPostData : value -> list value;
  (** [findStoryData(details)] *)
  findStoryData : value -> list value;
  (** lines 116-135: [newPage], [goto], the script payloads, [flat(1)] *)
  page_details : string -> outcome value;
  (** [page.evaluate] of the [fetch] with the fixed headers, by URL *)
  fetch_json : string -> outcome value;
  (** [lodash.get(object, path, defaultValue)] *)
  lodash_get : value -> string -> value -> value
}.

(** [xs[0]] on the array a searcher returns. *)
Definition first_match (xs : list value) : value := nth 0 xs VUndef.

Fixpoint find_item (callback : value -> outcome bool) (items : list value)
  : outcome value :=
  match items with
  | [] => Ok VUndef
  | x :: rest =>
      match callback x with
      | Ok true => Ok x
      | Ok false => find_item callback rest
      | Throw e => Throw e
      end
  end.

(** [v.find(callback)]: only an array has the method. *)
Definition array_find (v : value) (callback : value -> outcome bool)
  : outcome value :=
  match v with
  | VArr items => find_item callback items
  | _ => Throw TypeError
  end.

Definition site : string := "https://www.instagram.com".
Definition media_info_url (media_id : value) : string :=
  "https://i.instagram.com/api/v1/media/" ++ toString media_id ++ "/info/".
Definition reels_media_url (userId : value) : string :=
  "https://i.instagram.com/api/v1/feed/reels_media/?reel_ids=" ++ toString userId.

Section Resolver.
Variable W : World.

(** The in-page request, recorded in the log of requested URLs. *)
Definition page_fetch (u : string) : M (list string) value :=
  fun requests => (fetch_json W u, requests ++ [u]).

(** Line 155: [postData?.meta.title ?? null]. *)
Definition initial_title (postData : value) : outcome value :=
  if is_nullish postData then Ok VNull
  else match get postData "meta" with
       | Ok meta => match get meta "title" with
                    | Ok t => Ok (nullish_or t VNull)
                    | Throw e => Throw e
                    end
       | Throw e => Throw e
       end.

(** Lines 160-181, the [case !!postData]. *)
Definition post_branch (title postData : value)
  : M (list string) (value * value * list value) :=
  path <- lift (get postData "url") ;;
  let url := VStr (site ++ toString path) in
  rootView <- lift (get postData "rootView") ;;
  props <- lift (get rootView "props") ;;
  media_id <- lift (get props "media_id") ;;
  data <- page_fetch (media_info_url media_id) ;;
  items <- lift (get data "items") ;;
  spread <- lift (iterate items) ;;
  ret (title, url, spread).

(** The callback of [find] on line 208. *)
Definition is_initial_media (storyData item : value) : outcome bool :=
  match get item "pk" with
  | Ok pk =>
      match get storyData "params" with
      | Ok params =>
          match get params "initial_media_id" with
          | Ok id => Ok (strict_eq pk id)
          | Throw e => Throw e
          end
      | Throw e => Throw e
      end
  | Throw e => Throw e
  end.

(** Lines 185-215, the [case !!storyData].  The right operand of [||]
    reads [data.reels[userId].user] again; the reads are pure and cannot
    throw once the left operand was read, so the binding [user] stands for
    both and [username] is read at once. *)
Definition story_branch (storyData : value)
  : M (list string) (value * value * list value) :=
  path <- lift (get storyData "url") ;;
  let url := VStr (site ++ toString path) in
  rootView <- lift (get storyData "rootView") ;;
  props <- lift (get rootView "props") ;;
  owner <- lift (get props "user") ;;
  userId <- lift (get owner "id") ;;
  data <- page_fetch (reels_media_url userId) ;;
  reels <- lift (get data "reels") ;;
  entry <- lift (get reels (toString userId)) ;;
  user <- lift (get entry "user") ;;
  full_name <- lift (get user "full_name") ;;
  username <- lift (get user "username") ;;
  let title := or_else full_name (or_else username VNull) in
  let items :=
    lodash_get W data ("reels." ++ toString userId ++ ".items") (VArr []) in
  reel <- lift (array_find items (is_initial_media storyData)) ;;
  ret (title, url, if truthy reel then [reel] else []).

(** Lines 142-221: the two descriptors, the title, the [switch (true)]. *)
Definition fetchRawMedia (details : value)
  : M (list string) (value * value * list value) :=
  let postData := first_match (findPostData W details) in
  let storyData := first_match (findStoryData W details) in
  title <- lift (initial_title postData) ;;
  if truthy postData then post_branch title postData
  else if truthy storyData then story_branch storyData
  else throw (Error "Unhandled page type").

(** Lines 247-255. *)
Definition finish (title url : value) (media : list MediaDescriptor)
  : M (list string) ResolvedContent.t :=
  if Nat.eqb (List.length media) 0 then throw (Error "No media found")
  else ret (ResolvedContent.mk title url media).

(** [computeForLink], lines 115-256. *)
Definition computeForLink (link : string) : M (list string) ResolvedContent.t :=
  details <- lift (page_details W link) ;;
  fetched <- fetchRawMedia details ;;
  let '(title, url, rawMedia) := fetched in
  media <- lift (flatten rawMedia) ;;
  finish title url media.

End Resolver.

(** A page on which the story searcher answers [story] instead. *)
Definition with_story (W : World) (story : value -> list value) : World :=
  {| findPostData := findPostData W;
     findStoryData := story;
     page_details := page_details W;
     fetch_json := fetch_json W;
     lodash_get := lodash_get W |}.

(** ** lodash's [get] on dotted paths *)

Fixpoint split_dots (path cur : string) : list string :=
  match path with
  | EmptyString => [cur]
  | String c rest =>
      if Ascii.eqb c "."%char then cur :: split_dots rest EmptyString
      else split_dots rest (cur ++ String c EmptyString)
  end.

Definition has_key (object : value) (k : string) : bool :=
  match object with
  | VObj fields => existsb (fun kv => String.eqb (fst kv) k) fields
  | _ => false
  end.

(** lodash's [baseGet]: follow the keys while the value is not nullish. *)
Fixpoint base_get (object : value) (keys : list string) : value :=
  match keys with
  | [] => object
  | k :: rest =>
      match get object k with
      | Ok v => base_get v rest
      | Throw _ => VUndef
      end
  end.

(** [lodash.get] for the paths of this program, which are written with dots
    and no brackets: the path is one key when the object has a property of
    that very name, and is split at its dots otherwise; the default stands
    in for [undefined] only. *)
Definition lodash_get_dotted (object : value) (path : string) (dflt : value)
  : value :=
  if is_nullish object then dflt
  else
    let keys := if has_key object path then [path] else split_dots path EmptyString in
    match base_get object keys with
    | VUndef => dflt
    | v => v
    end.

(** A page whose searchers found [post] and [story] and whose endpoint
    answers [response]. *)
Definition page_with (post story : list value) (response : outcome value)
  : World :=
  {| findPostData := fun _ => post;
     findStoryData := fun _ => story;
     page_details := fun _ => Ok (VArr []);
     fetch_json := fun _ => response;
     lodash_get := lodash_get_dotted |}.

(** ** The specification's view of raw media *)

(** The RawMediaRecord of the data model: a leaf with a video URL, a leaf
    with an image URL, or a carousel of further records. *)
Inductive RawMediaRecord : Type :=
| VideoLeaf (u : value)
| ImageLeaf (u : value)
| Carousel (children : list RawMediaRecord).

(** The leaves of a tree, depth first and left to right. *)
Fixpoint leaves (t : RawMediaRecord) : list MediaDescriptor :=
  match t with
  | VideoLeaf u => [Descriptor video u]
  | ImageLeaf u => [Descriptor photo u]
  | Carousel children => flat_map leaves children
  end.

(** The field [k] of [item] reads as falsy: missing, [null], and so on. *)
Definition lacks (item : value) (k : string) : Prop :=
  exists v, get item k = Ok v /\ truthy v = false.

(** When a JSON record stands for a tree.  A video leaf may carry an image
    too (its poster); the other fields of a record are free. *)
Inductive represents : value -> RawMediaRecord -> Prop :=
| represents_video item variant rest u :
    get item "video_versions" = Ok (VArr (variant :: rest)) ->
    get variant "url" = Ok u ->
    represents item (VideoLeaf u)
| represents_image item image candidate rest u :
    lacks item "video_versions" ->
    get item "image_versions2" = Ok image ->
    get image "candidates" = Ok (VArr (candidate :: rest)) ->
    get candidate "url" = Ok u ->
    represents item (ImageLeaf u)
| represents_carousel item items children :
    lacks item "video_versions" ->
    lacks item "image_versions2" ->
    get item "carousel_media" = Ok (VArr items) ->
    Forall2 represents items children ->
    represents item (Carousel children).

(** The canonical JSON of a tree. *)
Fixpoint encode (t : RawMediaRecord) : value :=
  match t with
  | VideoLeaf u => VObj [("video_versions", VArr [VObj [("url", u)]])]
  | ImageLeaf u =>
      VObj [("image_versions2", VObj [("candidates", VArr [VObj [("url", u)]])])]
  | Carousel children => VObj [("carousel_media", VArr (map encode children))]
  end.


(** A computation [c] over the [media] array only appends: what it returns
    and what it appends do not depend on what the array already holds. *)
Definition appends_only {A} (c : M (list MediaDescriptor) A) : Prop :=
  forall media, c media = (fst (c []), media ++ snd (c [])).

(** A computation [c] over the log of requests only adds requests, and
    each request it adds satisfies [P]. *)
Definition requests_only {A} (P : string -> Prop) (c : M (list string) A)
  : Prop :=
  forall requests out requests',
    c requests = (out, requests') ->
    exists made, requests' = requests ++ made /\ Forall P made.

(** ** The Batch Runner *)

Module BatchRunner.
Section Model.
Variables Input Output : Type.

(** Modelled from the spec: the result an invocation of the per-item
    function settles to, success or failure ([processRequests] and its
    promise queue live in resolvers/lib.js, which is not in the
    sources). *)
Variable fn : Input -> outcome Output.

(** Modelled from the spec: the configured limit N of section 4.4
    ([processRequests] of resolvers/lib.js is missing). *)
Variable concurrency : nat.

(** Modelled from the spec: the runner of section 4.4, missing with
    resolvers/lib.js: the items still queued, the invocations active, and
    the outcomes collected, each with its originating item. *)
Record state : Type := {
  queue : list Input;
  active : list Input;
  outcomes : list (Input * outcome Output)
}.

(** Modelled from the spec: the sliding window of section 4.4
    (resolvers/lib.js is missing): queued items are dispatched while a
    slot is free.  The first argument bounds the loop by the queue's
    length. *)
Fixpoint dispatch (n : nat) (s : state) : state :=
  match n, queue s with
  | S n', x :: rest =>
      if Nat.ltb (List.length (active s)) concurrency
      then dispatch n' {| queue := rest;
                       active := active s ++ [x];
                       outcomes := outcomes s |}
      else s
  | _, _ => s
  end.

(** Modelled from the spec: the start of a run of section 4.4
    (resolvers/lib.js is missing). *)
Definition start (items : list Input) : state :=
  dispatch (List.length items)
        {| queue := items; active := []; outcomes := [] |}.

Fixpoint remove_nth {A} (k : nat) (l : list A) : list A :=
  match k, l with
  | _, [] => []
  | O, _ :: rest => rest
  | S k', x :: rest => x :: remove_nth k' rest
  end.

(** Modelled from the spec: one settlement, section 4.4 (resolvers/lib.js
    is missing).  The active invocation in slot [k] settles, with success
    or with failure alike: its outcome is recorded with its item, only
    its own slot is freed, and the next queued item is dispatched. *)
Definition settle (k : nat) (s : state) : option state :=
  match nth_error (active s) k with
  | Some x =>
      Some (dispatch (List.length (queue s))
                  {| queue := queue s;
                     active := remove_nth k (active s);
                     outcomes := outcomes s ++ [(x, fn x)] |})
  | None => None
  end.

(** Modelled from the spec: a run of section 4.4 (resolvers/lib.js is
    missing) in which the invocations settle in the given order of
    slots. *)
Fixpoint run (order : list nat) (s : state) : option state :=
  match order with
  | [] => Some s
  | k :: rest =>
      match settle k s with
      | Some s' => run rest s'
      | None => None
      end
  end.

(** Modelled from the spec: overall completion, section 4.4
    (resolvers/lib.js is missing): nothing queued, nothing active. *)
Definition completed (s : state) : bool :=
  match queue s, active s with
  | [], [] => true
  | _, _ => false
  end.

(** What every state of a run over [items] satisfies: the window is
    never over-full, no item is lost or duplicated, every outcome is the
    one of its own item, and a slot is left free only when nothing is
    queued. *)
Definition invariant (items : list Input) (s : state) : Prop :=
  List.length (active s) <= concurrency
  /\ Permutation (queue s ++ active s ++ map fst (outcomes s)) items
  /\ (forall x o, In (x, o) (outcomes s) -> o = fn x)
  /\ (queue s = [] \/ concurrency <= List.length (active s)).

End Model.

Arguments Build_state {Input Output} queue active outcomes.
Arguments queue {Input Output} s.
Arguments active {Input Output} s.
Arguments outcomes {Input Output} s.
Arguments dispatch {Input Output} concurrency n s.
Arguments start {Input Output} concurrency items.
Arguments settle {Input Output} fn concurrency k s.
Arguments run {Input Output} fn concurrency order s.
Arguments completed {Input Output} s.
Arguments invariant {Input Output} fn concurrency items s.
End BatchRunner.

(** The call on lines 258-264: [({ link }) => computeForLink(link)], each
    link on a page of its own, under [concurrency: 4]. *)
Definition resolver (W : World) (link : string) : outcome ResolvedContent.t :=
  fst (computeForLink W link []).
Definition concurrency : nat := 4.

(** ** Sample documents *)

Definition imageLeaf : value :=
  VObj [("image_versions2",
         VObj [("candidates", VArr [VObj [("url", VStr "a.jpg")]])])].

Definition videoLeaf : value :=
  VObj [("pk", VStr "99");
        ("video_versions", VArr [VObj [("url", VStr "v.mp4")]])].

Definition carouselOfBoth : value :=
  VObj [("carousel_media", VArr [imageLeaf; videoLeaf])].

(** A record with both fields present whose list of video variants is
    empty. *)
Definition videoWithoutVariants : value :=
  VObj [("video_versions", VArr []);
        ("image_versions2",
         VObj [("candidates", VArr [VObj [("url", VStr "a.jpg")]])])].

(** A record with both fields present and one variant of each. *)
Definition videoWithPoster : value :=
  VObj [("video_versions", VArr [VObj [("url", VStr "v.mp4")]]);
        ("image_versions2",
         VObj [("candidates", VArr [VObj [("url", VStr "a.jpg")]])])].


Definition postDescriptor : value :=
  VObj [("tracePolicy", VStr "polaris.postPage");
        ("url", VStr "/p/abc/");
        ("meta", VObj [("title", VStr "A post")]);
        ("rootView", VObj [("props", VObj [("media_id", VStr "123")])])].

Definition storyDescriptor : value :=
  VObj [("tracePolicy", VStr "polaris.StoriesPage");
        ("url", VStr "/stories/u1/99/");
        ("params", VObj [("initial_media_id", VStr "99")]);
        ("rootView",
         VObj [("props", VObj [("user", VObj [("id", VStr "u1")])])])].

Definition postResponse : value := VObj [("items", VArr [imageLeaf])].


(** A site with two pages: [/p/abc/] embeds the post descriptor, any other
    page embeds neither descriptor. *)
Definition two_pages : World :=
  {| findPostData := fun details =>
       if strict_eq details (VStr "https://www.instagram.com/p/abc/")
       then [postDescriptor] else [];
     findStoryData := fun _ => [];
     page_details := fun link => Ok (VStr link);
     fetch_json := fun _ => Ok postResponse;
     lodash_get := lodash_get_dotted |}.

(** ** The searchers' filters *)

(** [item instanceof Object] and [item instanceof Array] on a JSON value:
    objects and arrays are objects, primitives are not. *)
Definition instanceof_Object (item : value) : bool :=
  match item with
  | VArr _ | VObj _ => true
  | _ => false
  end.

Definition instanceof_Array (item : value) : bool :=
  match item with
  | VArr _ => true
  | _ => false
  end.

(** [item[k] === tag], the right operand of the filters' [&&]. *)
Definition tagged (item : value) (k tag : string) : outcome bool :=
  match get item k with
  | Ok x => Ok (strict_eq x (VStr tag))
  | Throw e => Throw e
  end.

(** Line 24: [item instanceof Array && item[0] === 'XIGSharedData']. *)
Definition sharedDataFilter (item : value) : outcome bool :=
  if instanceof_Array item then tagged item "0" "XIGSharedData" else Ok false.

(** Line 30: [item instanceof Object && item.tracePolicy === 'polaris.postPage']. *)
Definition postDataFilter (item : value) : outcome bool :=
  if instanceof_Object item then tagged item "tracePolicy" "polaris.postPage"
  else Ok false.

(** Line 35: [item instanceof Object && item.tracePolicy === 'polaris.StoriesPage']. *)
Definition storyDataFilter (item : value) : outcome bool :=
  if instanceof_Object item then tagged item "tracePolicy" "polaris.StoriesPage"
  else Ok false.

(** The searchers of a page return only values their filter accepts. *)
Definition searchers_obey (W : World) : Prop :=
  forall details item,
    (In item (findPostData W details) -> postDataFilter item = Ok true)
    /\ (In item (findStoryData W details) -> storyDataFilter item = Ok true).

(** ** The environment: [PUPPETEER_ARGS] *)

(** [s.split(' ')]; [cur] is the piece being read. *)
Fixpoint split_spaces (s cur : string) : list string :=
  match s with
  | EmptyString => [cur]
  | String c rest =>
      if Ascii.eqb c " "%char then cur :: split_spaces rest EmptyString
      else split_spaces rest (cur ++ String c EmptyString)
  end.

(** [parts.join(' ')]. *)
Fixpoint join_spaces (parts : list string) : string :=
  match parts with
  | [] => EmptyString
  | [p] => p
  | p :: rest => p ++ " " ++ join_spaces rest
  end.

(** Line 47: [typeof value === 'string' ? value.split(' ') : value]. *)
Definition preprocessArgs (v : value) : value :=
  match v with
  | VStr s => VArr (map VStr (split_spaces s EmptyString))
  | _ => v
  end.

(** zod's [z.array(z.string())]: an array all of whose elements are
    strings. *)
Fixpoint strings_of (items : list value) : option (list string) :=
  match items with
  | [] => Some []
  | VStr s :: rest =>
      match strings_of rest with
      | Some l => Some (s :: l)
      | None => None
      end
  | _ :: _ => None
  end.

(** Lines 46-49: [z.preprocess(..., z.array(z.string())).optional()] on the
    value of [PUPPETEER_ARGS]: [Some None] when it is not set, [Some (Some
    args)] when it validates, [None] when zod rejects it. *)
Definition parseArgs (v : value) : option (option (list string)) :=
  match v with
  | VUndef => Some None
  | _ =>
      match preprocessArgs v with
      | VArr items =>
          match strings_of items with
          | Some args => Some (Some args)
          | None => None
          end
      | _ => None
      end
  end.

(** The number of spaces of a string. *)
Fixpoint count_spaces (s : string) : nat :=
  match s with
  | EmptyString => 0
  | String c rest =>
      (if Ascii.eqb c " "%char then 1 else 0) + count_spaces rest
  end.

(** ** Deferred cleanup and the page's life *)

(** What the program does to the outside, in order. *)
Inductive event : Type :=
| NewPage
| Goto (link : string)
| Evaluate
| Fetch (u : string)
| ClosePage
| CreateGmail (clientId clientSecret redirectUri : string)
| CreatePuppeteer (proxy : value)
| Connect (browserURL : value)
| Launch (executablePath : value) (args : option (list string))
         (userDataDir : value)
| Login (username password : string)
| ProcessRequests (concurrency : nat)
| CloseBrowser
| DisconnectBrowser.

(** An external call: it is recorded, and returns or throws. *)
Definition call {A} (e : event) (o : outcome A) : M (list event) A :=
  fun trace => (o, trace ++ [e]).

(** A function body run under [radash.defer]: beside the trace it holds
    the callbacks registered so far. *)
Definition Deferred (A : Type) : Type :=
  M (list event * list (M (list event) unit)) A.

(** [defer(callback)] inside the body. *)
Definition register (callback : M (list event) unit) : Deferred unit :=
  fun st => (Ok tt, (fst st, snd st ++ [callback])).

(** A step of the body that registers nothing. *)
Definition step {A} (c : M (list event) A) : Deferred A :=
  fun st => (fst (c (fst st)), (snd (c (fst st)), snd st)).

(** The callbacks run in the order of registration; what they throw is
    dropped ([rethrow] is not set anywhere in the program). *)
Fixpoint run_callbacks (callbacks : list (M (list event) unit))
         (trace : list event) : list event :=
  match callbacks with
  | [] => trace
  | callback :: rest => run_callbacks rest (snd (callback trace))
  end.

(** The error objects are truthy; a rejection reason is what it is. *)
Definition thrown_truthy (e : thrown) : bool :=
  match e with
  | Rejected reason => truthy reason
  | _ => true
  end.

(** [radash.defer(func)]: run the body, run the registered callbacks, then
    rethrow the body's error when it is truthy and return the body's
    result otherwise ([undefined], here [None], after a falsy error). *)
Definition defer {A} (func : Deferred A) : M (list event) (option A) :=
  fun trace =>
    let r := func (trace, []) in
    let trace' := run_callbacks (snd (snd r)) (fst (snd r)) in
    match fst r with
    | Ok a => (Ok (Some a), trace')
    | Throw e =>
        if thrown_truthy e then (Throw e, trace') else (Ok None, trace')
    end.

(** [xs.flat(1)]: the elements of the arrays among [xs], in place. *)
Fixpoint flat1 (xs : list value) : list value :=
  match xs with
  | [] => []
  | VArr items :: rest => items ++ flat1 rest
  | x :: rest => x :: flat1 rest
  end.

(** The browser of [computeForLink]: [browser.newPage()], [page.goto],
    the array [page.evaluate] returns for the script payloads, and
    [page.close()]. *)
Record Browser : Type := {
  newPage : outcome unit;
  goto : string -> outcome unit;
  evaluate : string -> outcome (list value);
  close : outcome unit
}.

(** A computation over the log of requests, run inside the trace: its
    requests become [Fetch] events. *)
Definition requesting {A} (c : M (list string) A) : M (list event) A :=
  fun trace => (fst (c []), trace ++ map Fetch (snd (c []))).

(** [computeForLink] with its page, lines 115-256: the body under
    [radash.defer], the page closed by the registered callback. *)
Definition computeForLinkOnPage (B : Browser) (W : World) (link : string)
  : M (list event) (option ResolvedContent.t) :=
  defer (
    step (call NewPage (newPage B)) ;;;
    register (call ClosePage (close B)) ;;;
    step (call (Goto link) (goto B link)) ;;;
    payloads <- step (call Evaluate (evaluate B link)) ;;
    let details := VArr (flat1 payloads) in
    fetched <- step (requesting (fetchRawMedia W details)) ;;
    let '(title, url, rawMedia) := fetched in
    media <- step (lift (flatten rawMedia)) ;;
    step (requesting (finish title url media))).

(** Lines 116-135 as one step: the page's details, or what opening,
    loading or reading the page threw. *)
Definition details_of (B : Browser) (link : string) : outcome value :=
  match newPage B with
  | Ok _ =>
      match goto B link with
      | Ok _ =>
          match evaluate B link with
          | Ok payloads => Ok (VArr (flat1 payloads))
          | Throw e => Throw e
          end
      | Throw e => Throw e
      end
  | Throw e => Throw e
  end.

(** The world of a browser: the same searchers and endpoints, the page
    read through the browser. *)
Definition on_browser (W : World) (B : Browser) : World :=
  {| findPostData := findPostData W;
     findStoryData := findStoryData W;
     page_details := details_of B;
     fetch_json := fetch_json W;
     lodash_get := lodash_get W |}.

(** What [radash.defer] makes of the outcome of its body. *)
Definition deferred_outcome {A} (o : outcome A) : outcome (option A) :=
  match o with
  | Ok a => Ok (Some a)
  | Throw e => if thrown_truthy e then Throw e else Ok None
  end.

(** ** The program *)

(** The validated environment, lines 38-55: a string, or [undefined] for
    an optional variable that is not set. *)
Record Env : Type := {
  CLIENT_ID : string;
  CLIENT_SECRET : string;
  REDIRECT_URI : string;
  IG_USERNAME : string;
  IG_PASSWORD : string;
  PUPPETEER_EXECUTABLE_PATH : value;
  PUPPETEER_ARGS : option (list string);
  PUPPETEER_DATA_PATH : value;
  PUPPETEER_REMOTE_URL : value;
  PUPPETEER_PROXY : value
}.

(** The collaborators of the program's body, each returning or throwing:
    [createGmail], [createPuppeteer], [puppeteer.connect],
    [puppeteer.launch], [login], [processRequests], [browser.close],
    [browser.disconnect]; and [nodePath.join(process.cwd(), './data')]. *)
Record System : Type := {
  createGmail : outcome unit;
  createPuppeteer : outcome unit;
  connect : outcome unit;
  launch : outcome unit;
  login : outcome unit;
  processRequests : outcome unit;
  browser_close : outcome unit;
  browser_disconnect : outcome unit;
  default_data_dir : string
}.

(** Lines 106-112: [resolveVerificationCode], on what
    [gmail.resolveVerifyCode()] settles to. *)
Definition resolveVerificationCode (resolveVerifyCode : outcome value)
  : outcome value :=
  match resolveVerifyCode with
  | Ok code =>
      if strict_eq code VUndef then Throw (Error "No verification code found")
      else Ok code
  | Throw e => Throw e
  end.

(** Lines 85-100: the remote browser when [PUPPETEER_REMOTE_URL] is set, a
    launched one otherwise, each with its deferred callback. *)
Definition obtainBrowser (env : Env) (X : System) : Deferred unit :=
  if negb (strict_eq (PUPPETEER_REMOTE_URL env) VUndef) then
    step (call (Connect (PUPPETEER_REMOTE_URL env)) (connect X)) ;;;
    register (call CloseBrowser (browser_close X))
  else
    step (call (Launch (PUPPETEER_EXECUTABLE_PATH env) (PUPPETEER_ARGS env)
                       (nullish_or (PUPPETEER_DATA_PATH env)
                                   (VStr (default_data_dir X))))
               (launch X)) ;;;
    register (call DisconnectBrowser (browser_disconnect X)).

(** Lines 57-265: the body given to [radash.defer]. *)
Definition main (env : Env) (X : System) : M (list event) (option unit) :=
  defer (
    step (call (CreateGmail (CLIENT_ID env) (CLIENT_SECRET env)
                            (REDIRECT_URI env))
               (createGmail X)) ;;;
    step (call (CreatePuppeteer (PUPPETEER_PROXY env)) (createPuppeteer X)) ;;;
    obtainBrowser env X ;;;
    step (call (Login (IG_USERNAME env) (IG_PASSWORD env)) (login X)) ;;;
    step (call (ProcessRequests concurrency) (processRequests X))).

(** A computation over the log of requests makes at most [n] requests,
    each satisfying [P]. *)
Definition requests_bounded {A} (n : nat) (P : string -> Prop)
           (c : M (list string) A) : Prop :=
  forall requests out requests',
    c requests = (out, requests') ->
    exists made,
      requests' = requests ++ made /\ length made <= n /\ Forall P made.

(** The two endpoints of the program. *)
Definition is_endpoint (u : string) : Prop :=
  (exists media_id, u = media_info_url media_id)
  \/ (exists userId, u = reels_media_url userId).

(** The number of occurrences of an event in a trace. *)
Fixpoint occurrences (P : event -> bool) (trace : list event) : nat :=
  match trace with
  | [] => 0
  | e :: rest => (if P e then 1 else 0) + occurrences P rest
  end.

Definition is_ClosePage (e : event) : bool :=
  match e with ClosePage => true | _ => false end.
Definition is_cleanup (e : event) : bool :=
  match e with CloseBrowser | DisconnectBrowser => true | _ => false end.

(** Sample environments and collaborators. *)
Definition sample_env (remote : value) : Env :=
  {| CLIENT_ID := "id"; CLIENT_SECRET := "secret"; REDIRECT_URI := "uri";
     IG_USERNAME := "user"; IG_PASSWORD := "password";
     PUPPETEER_EXECUTABLE_PATH := VUndef;
     PUPPETEER_ARGS := Some ["--no-sandbox"];
     PUPPETEER_DATA_PATH := VUndef;
     PUPPETEER_REMOTE_URL := remote;
     PUPPETEER_PROXY := VUndef |}.

Definition sample_system (login_result : outcome unit) : System :=
  {| createGmail := Ok tt; createPuppeteer := Ok tt;
     connect := Ok tt; launch := Ok tt;
     login := login_result; processRequests := Ok tt;
     browser_close := Ok tt; browser_disconnect := Ok tt;
     default_data_dir := "/srv/bot/data" |}.

Definition sample_browser (payloads : list value) : Browser :=
  {| newPage := Ok tt;
     goto := fun _ => Ok tt;
     evaluate := fun _ => Ok payloads;
     close := Ok tt |}.

(** The requests recorded in a trace. *)
Fixpoint fetches (trace : list event) : list string :=
  match trace with
  | [] => []
  | Fetch u :: rest => u :: fetches rest
  | _ :: rest => fetches rest
  end.

(** A computation over a log only appends to it, and what it returns and
    appends does not depend on what the log already holds. *)
Definition log_independent {L A} (c : M (list L) A) : Prop :=
  forall log, c log = (fst (c []), log ++ snd (c [])).

(** A step of a deferred body registers nothing and records only events
    satisfying [P]. *)
Definition records_only {A} (P : event -> Prop) (c : Deferred A) : Prop :=
  forall st, exists made,
    snd (c st) = (fst st ++ made, snd st) /\ Forall P made.

Definition not_ClosePage (e : event) : Prop := is_ClosePage e = false.

(** Whether the program uses a remote browser, and whether it got as far
    as holding a browser; the callback registered for that browser. *)
Definition remote (env : Env) : bool :=
  negb (strict_eq (PUPPETEER_REMOTE_URL env) VUndef).

Definition browser_obtained (env : Env) (X : System) : Prop :=
  createGmail X = Ok tt
  /\ createPuppeteer X = Ok tt
  /\ (if remote env then connect X else launch X) = Ok tt.

Definition cleanup_of (env : Env) : event :=
  if remote env then CloseBrowser else DisconnectBrowser.

(** ** Where the rendering of a value is exact *)

Definition MAX_SAFE_INTEGER : Z := 9007199254740991.

(** [toString] prints a number digit by digit.  That is what JavaScript
    prints for the safe integers; beyond them JavaScript prints the digits
    of the nearest double.  A value renders exactly when every number
    [toString] reaches in it is a safe integer; the statements that name a
    rendered string are made of such values. *)
Fixpoint renders_exactly (v : value) : bool :=
  match v with
  | VNum n => Z.leb (Z.abs n) MAX_SAFE_INTEGER
  | VArr items =>
      (fix all (l : list value) : bool :=
         match l with
         | [] => true
         | x :: rest => renders_exactly x && all rest
         end) items
  | _ => true
  end.



(** The first step of the program's body that throws, if any. *)
Definition first_failure (env : Env) (X : System) : option thrown :=
  match createGmail X with
  | Throw e => Some e
  | Ok _ =>
      match createPuppeteer X with
      | Throw e => Some e
      | Ok _ =>
          match (if remote env then connect X else launch X) with
          | Throw e => Some e
          | Ok _ =>
              match login X with
              | Throw e => Some e
              | Ok _ =>
                  match processRequests X with
                  | Throw e => Some e
                  | Ok _ => None
                  end
              end
          end
      end
  end.

(** More sample documents: a post descriptor without [meta], a reel
    response without the owner's reel, and records whose video field is
    not a list. *)
Definition postWithoutMeta : value :=
  VObj [("tracePolicy", VStr "polaris.postPage");
        ("url", VStr "/p/abc/");
        ("rootView", VObj [("props", VObj [("media_id", VStr "123")])])].



(** * Properties *)

(** ** Reasoning about computations *)

Lemma bind_lift_ok {S A B} (a : A) (k : A -> M S B) (s : S) :
  bind (lift (Ok a)) k s = k a s.
Proof. reflexivity. Qed.

Lemma bind_lift_throw {S A B} (e : thrown) (k : A -> M S B) (s : S) :
  bind (lift (Throw e)) k s = (Throw e, s).
Proof. reflexivity. Qed.

Lemma for_each_app {S A} (xs ys : list A) (body : A -> M S unit) (s : S) :
  for_each (xs ++ ys) body s =
  match for_each xs body s with
  | (Ok _, s') => for_each ys body s'
  | (Throw e, s') => (Throw e, s')
  end.
Proof.
  revert s; induction xs as [|x xs IH]; intro s; simpl.
  - reflexivity.
  - unfold bind. destruct (body x s) as [[[]|e] s']; [apply IH | reflexivity].
Qed.

Lemma for_each_ext {S A} (xs : list A) (f g : A -> M S unit) :
  (forall x, In x xs -> forall s, f x s = g x s) ->
  forall s, for_each xs f s = for_each xs g s.
Proof.
  induction xs as [|x xs IH]; intros H s; simpl; [reflexivity|].
  unfold bind. rewrite (H x (or_introl eq_refl)).
  destruct (g x s) as [[[]|e] s']; [|reflexivity].
  apply IH. intros y Hy. apply H. now right.
Qed.

Lemma appends_only_ret {A} (a : A) : appends_only (ret a).
Proof. intro media. unfold ret; simpl. now rewrite app_nil_r. Qed.

Lemma appends_only_lift {A} (o : outcome A) : appends_only (lift o).
Proof. intro media. unfold lift; simpl. now rewrite app_nil_r. Qed.

Lemma appends_only_throw {A} (e : thrown) : appends_only (@throw _ A e).
Proof. intro media. unfold throw; simpl. now rewrite app_nil_r. Qed.

Lemma appends_only_push (d : MediaDescriptor) : appends_only (push d).
Proof. intro media. reflexivity. Qed.

Lemma appends_only_bind {A B} (c : M (list MediaDescriptor) A)
      (k : A -> M (list MediaDescriptor) B) :
  appends_only c -> (forall a, appends_only (k a)) -> appends_only (bind c k).
Proof.
  intros Hc Hk media. unfold bind.
  rewrite (Hc media). destruct (c []) as [[a|e] out]; simpl.
  - rewrite (Hk a (media ++ out)), (Hk a out). simpl. now rewrite app_assoc.
  - reflexivity.
Qed.

Lemma appends_only_for_each {A} (xs : list A)
      (body : A -> M (list MediaDescriptor) unit) :
  (forall x, In x xs -> appends_only (body x)) -> appends_only (for_each xs body).
Proof.
  induction xs as [|x xs IH]; intros H; simpl.
  - apply appends_only_ret.
  - apply appends_only_bind; [apply H; now left|].
    intros _. apply IH. intros y Hy. apply H. now right.
Qed.

Create HintDb appends discriminated.
#[local] Hint Resolve appends_only_ret appends_only_lift appends_only_throw
  appends_only_push : appends.

Lemma appends_only_processMedia (fuel : nat) (item : value) :
  appends_only (processMedia fuel item).
Proof.
  revert item; induction fuel as [|fuel IH]; intros item; simpl.
  - auto with appends.
  - repeat first
      [ apply appends_only_bind; [solve [auto with appends]|intros ?]
      | match goal with |- appends_only (if ?b then _ else _) => destruct b end
      | solve [auto with appends]
      | apply appends_only_for_each; intros ? _; apply IH ].
Qed.

(** ** The call depth [processMedia] needs *)

Lemma depth_VArr_In (x : value) (items : list value) :
  In x items -> depth x < depth (VArr items).
Proof.
  simpl. induction items as [|y items IH]; intros H; [destruct H|].
  destruct H as [->|H]; [lia|]. specialize (IH H). lia.
Qed.

Lemma depth_own (fields : list (string * value)) (k : string) :
  depth (own fields k) < depth (VObj fields).
Proof.
  induction fields as [|[k' v] fields IH]; simpl in *; [lia|].
  destruct (String.eqb k' k); lia.
Qed.

Lemma depth_chars (s : string) (c : value) : In c (chars s) -> depth c = 0.
Proof.
  induction s as [|a s IH]; simpl; [tauto|]. intros [<-|H]; auto.
Qed.

Lemma carousel_child_depth (item cm c : value) (children : list value) :
  get item "carousel_media" = Ok cm ->
  iterate cm = Ok children ->
  In c children ->
  depth c < depth item.
Proof.
  intros Hget Hit Hin.
  destruct item as [| | b | n | s | items | fields]; simpl in Hget;
    try discriminate;
    try (injection Hget as <-; discriminate).
  injection Hget as <-.
  pose proof (depth_own fields "carousel_media") as Hd.
  destruct (own fields "carousel_media") as [| | b | n | s | items | fs];
    simpl in Hit; try discriminate; injection Hit as <-.
  - rewrite (depth_chars _ _ Hin). lia.
  - pose proof (depth_VArr_In _ _ Hin). lia.
Qed.

Lemma bind_ext {S A B} (c : M S A) (k1 k2 : A -> M S B) (s : S) :
  (forall a s', c s = (Ok a, s') -> k1 a s' = k2 a s') ->
  bind c k1 s = bind c k2 s.
Proof.
  intro H. unfold bind. destruct (c s) as [[a|e] s']; [now apply H|reflexivity].
Qed.

Lemma lift_inv {S A} (o : outcome A) (a : A) (s s' : S) :
  lift o s = (Ok a, s') -> o = Ok a /\ s' = s.
Proof. unfold lift. intro H. now injection H as -> ->. Qed.

(** Above the depth of the record the bound plays no part. *)
Lemma processMedia_fuel (n : nat) :
  forall (item : value) (k : nat) (media : list MediaDescriptor),
    depth item < n -> n <= k ->
    processMedia k item media = processMedia n item media.
Proof.
  induction n as [|n IH]; intros item k media Hd Hk; [lia|].
  destruct k as [|k]; [lia|]. simpl.
  apply bind_ext. intros vv m1 _.
  destruct (truthy vv); [reflexivity|].
  apply bind_ext. intros iv m2 _.
  destruct (truthy iv); [reflexivity|].
  apply bind_ext. intros cm m3 [E3 _]%lift_inv.
  destruct (truthy cm); [|reflexivity].
  apply bind_ext. intros children m4 [E4 _]%lift_inv.
  apply for_each_ext. intros c Hc s. apply IH; [|lia].
  pose proof (carousel_child_depth item cm c children E3 E4 Hc). lia.
Qed.

Lemma get_throws (v : value) (k : string) (e : thrown) :
  get v k = Throw e -> e = TypeError.
Proof.
  destruct v; simpl; try congruence;
    destruct (index_of_key k); try congruence;
    destruct (String.eqb k "length"); congruence.
Qed.

Lemma iterate_throws (v : value) (e : thrown) :
  iterate v = Throw e -> e = TypeError.
Proof. destruct v; simpl; congruence. Qed.

(** ** The bound is never reached *)

Lemma for_each_no_RangeError {S A} (xs : list A) (body : A -> M S unit) :
  (forall x, In x xs -> forall s, fst (body x s) <> Throw RangeError) ->
  forall s, fst (for_each xs body s) <> Throw RangeError.
Proof.
  induction xs as [|x xs IH]; intros H s; simpl; [discriminate|].
  unfold bind. destruct (body x s) as [[[]|e] s'] eqn:E.
  - apply IH. intros y Hy. apply H. now right.
  - pose proof (H x (or_introl eq_refl) s) as Hx. now rewrite E in Hx.
Qed.

Lemma bind_lift_no_RangeError {S A B} (o : outcome A) (k : A -> M S B) (s : S) :
  (forall e, o = Throw e -> e = TypeError) ->
  (forall a, o = Ok a -> fst (k a s) <> Throw RangeError) ->
  fst (bind (lift o) k s) <> Throw RangeError.
Proof.
  intros Ho Hk. destruct o as [a|e].
  - rewrite bind_lift_ok. now apply Hk.
  - rewrite bind_lift_throw. simpl. rewrite (Ho e eq_refl). discriminate.
Qed.

Lemma processMedia_no_RangeError (n : nat) :
  forall (item : value) (media : list MediaDescriptor),
    depth item < n ->
    fst (processMedia n item media) <> Throw RangeError.
Proof.
  induction n as [|n IH]; intros item media Hd; [lia|].
  cbn [processMedia].
  apply bind_lift_no_RangeError; [apply get_throws|intros vv _].
  destruct (truthy vv).
  { apply bind_lift_no_RangeError; [apply get_throws|intros first _].
    apply bind_lift_no_RangeError; [apply get_throws|intros u _].
    discriminate. }
  apply bind_lift_no_RangeError; [apply get_throws|intros iv _].
  destruct (truthy iv).
  { apply bind_lift_no_RangeError; [apply get_throws|intros c _].
    apply bind_lift_no_RangeError; [apply get_throws|intros first _].
    apply bind_lift_no_RangeError; [apply get_throws|intros u _].
    discriminate. }
  apply bind_lift_no_RangeError; [apply get_throws|intros cm Hcm].
  destruct (truthy cm); [|discriminate].
  apply bind_lift_no_RangeError; [apply iterate_throws|intros children Hch].
  apply for_each_no_RangeError. intros c Hc s. apply IH.
  pose proof (carousel_child_depth item cm c children Hcm Hch Hc). lia.
Qed.

(** [flatten] never fails for want of call depth: whatever it throws is
    thrown by the source's own reads. *)
Lemma flatten_no_RangeError (rawMedia : list value) :
  flatten rawMedia <> Throw RangeError.
Proof.
  unfold flatten.
  pose proof (for_each_no_RangeError rawMedia
                (fun item => processMedia (S (depth item)) item)) as H.
  specialize (H (fun x _ s =>
                   processMedia_no_RangeError (S (depth x)) x s
                     (Nat.lt_succ_diag_r _)) []).
  destruct (for_each rawMedia _ []) as [[[]|e] media]; [discriminate|].
  simpl in H. congruence.
Qed.

(** ** One call of [processMedia], branch by branch *)

Ltac run_lift H := rewrite H; rewrite bind_lift_ok.

Lemma processMedia_video (n : nat) (item variant u : value) (rest : list value)
      (media : list MediaDescriptor) :
  get item "video_versions" = Ok (VArr (variant :: rest)) ->
  get variant "url" = Ok u ->
  processMedia (S n) item media = (Ok tt, media ++ [Descriptor video u]).
Proof.
  intros Hv Hu. cbn [processMedia]. run_lift Hv.
  change (truthy (VArr (variant :: rest))) with true. cbv iota.
  change (get (VArr (variant :: rest)) "0") with (Ok variant).
  rewrite bind_lift_ok. run_lift Hu. reflexivity.
Qed.

Lemma processMedia_skip_field (item : value) (k : string) {A}
      (body : value -> M (list MediaDescriptor) A)
      (other : M (list MediaDescriptor) A) (media : list MediaDescriptor) :
  lacks item k ->
  bind (lift (get item k)) (fun v => if truthy v then body v else other) media
  = other media.
Proof.
  intros (v & Hv & Hf). run_lift Hv. now rewrite Hf.
Qed.

Lemma processMedia_image (n : nat) (item image candidate u : value)
      (rest : list value) (media : list MediaDescriptor) :
  lacks item "video_versions" ->
  get item "image_versions2" = Ok image ->
  get image "candidates" = Ok (VArr (candidate :: rest)) ->
  get candidate "url" = Ok u ->
  processMedia (S n) item media = (Ok tt, media ++ [Descriptor photo u]).
Proof.
  intros Hv Hi Hc Hu. cbn [processMedia]. rewrite processMedia_skip_field by exact Hv.
  run_lift Hi.
  assert (Ht : truthy image = true).
  { destruct image; simpl in Hc |- *; try discriminate; try reflexivity. }
  rewrite Ht. run_lift Hc.
  change (get (VArr (candidate :: rest)) "0") with (Ok candidate).
  rewrite bind_lift_ok. run_lift Hu. reflexivity.
Qed.

Lemma processMedia_carousel (n : nat) (item : value) (items : list value)
      (media : list MediaDescriptor) :
  lacks item "video_versions" ->
  lacks item "image_versions2" ->
  get item "carousel_media" = Ok (VArr items) ->
  processMedia (S n) item media = for_each items (processMedia n) media.
Proof.
  intros Hv Hi Hc. cbn [processMedia].
  rewrite processMedia_skip_field by exact Hv.
  rewrite processMedia_skip_field by exact Hi.
  run_lift Hc. reflexivity.
Qed.


(** With a truthy [video_versions] only the video shape is tried, and with
    a truthy [image_versions2] after it only the image shape: the call
    pushes one descriptor of that kind or raises [TypeError]. *)
Lemma processMedia_video_only (n : nat) (item vv : value)
      (media : list MediaDescriptor) :
  get item "video_versions" = Ok vv ->
  truthy vv = true ->
  (exists u, processMedia (S n) item media
             = (Ok tt, media ++ [Descriptor video u]))
  \/ processMedia (S n) item media = (Throw TypeError, media).
Proof.
  intros Hv Ht. cbn [processMedia]. run_lift Hv. rewrite Ht.
  destruct (get vv "0") as [first|e] eqn:E0.
  - rewrite bind_lift_ok. destruct (get first "url") as [u|e] eqn:Eu.
    + left. exists u. now rewrite bind_lift_ok.
    + right. rewrite bind_lift_throw. now rewrite (get_throws _ _ _ Eu).
  - right. rewrite bind_lift_throw. now rewrite (get_throws _ _ _ E0).
Qed.

Lemma processMedia_image_only (n : nat) (item iv : value)
      (media : list MediaDescriptor) :
  lacks item "video_versions" ->
  get item "image_versions2" = Ok iv ->
  truthy iv = true ->
  (exists u, processMedia (S n) item media
             = (Ok tt, media ++ [Descriptor photo u]))
  \/ processMedia (S n) item media = (Throw TypeError, media).
Proof.
  intros Hv Hi Ht. cbn [processMedia].
  rewrite processMedia_skip_field by exact Hv. run_lift Hi. rewrite Ht.
  destruct (get iv "candidates") as [c|e] eqn:Ec;
    [rewrite bind_lift_ok
    |right; rewrite bind_lift_throw; now rewrite (get_throws _ _ _ Ec)].
  destruct (get c "0") as [first|e] eqn:E0;
    [rewrite bind_lift_ok
    |right; rewrite bind_lift_throw; now rewrite (get_throws _ _ _ E0)].
  destruct (get first "url") as [u|e] eqn:Eu.
  - left. exists u. now rewrite bind_lift_ok.
  - right. rewrite bind_lift_throw. now rewrite (get_throws _ _ _ Eu).
Qed.

(** A list of variants without a usable first variant: the read of its
    [url] raises. *)
Lemma first_url_raises (l : list value) :
  l = [] \/ (exists v rest, l = v :: rest /\ is_nullish v = true) ->
  exists first, get (VArr l) "0" = Ok first /\ get first "url" = Throw TypeError.
Proof.
  intros [->|(v & rest & -> & Hv)].
  - exists VUndef. split; reflexivity.
  - exists v. split; [reflexivity|]. destruct v; simpl in *; congruence.
Qed.

Lemma processMedia_video_raises (n : nat) (item : value) (l : list value)
      (media : list MediaDescriptor) :
  get item "video_versions" = Ok (VArr l) ->
  l = [] \/ (exists v rest, l = v :: rest /\ is_nullish v = true) ->
  processMedia (S n) item media = (Throw TypeError, media).
Proof.
  intros Hv Hl. destruct (first_url_raises l Hl) as (first & H0 & Hu).
  cbn [processMedia]. run_lift Hv.
  change (truthy (VArr l)) with true. cbv iota.
  run_lift H0. rewrite Hu. now rewrite bind_lift_throw.
Qed.

Lemma processMedia_image_raises (n : nat) (item image : value)
      (l : list value) (media : list MediaDescriptor) :
  lacks item "video_versions" ->
  get item "image_versions2" = Ok image ->
  get image "candidates" = Ok (VArr l) ->
  l = [] \/ (exists v rest, l = v :: rest /\ is_nullish v = true) ->
  processMedia (S n) item media = (Throw TypeError, media).
Proof.
  intros Hv Hi Hc Hl. destruct (first_url_raises l Hl) as (first & H0 & Hu).
  cbn [processMedia]. rewrite processMedia_skip_field by exact Hv.
  run_lift Hi.
  assert (Ht : truthy image = true).
  { destruct image; simpl in Hc |- *; try discriminate; try reflexivity. }
  rewrite Ht. run_lift Hc. run_lift H0. rewrite Hu.
  now rewrite bind_lift_throw.
Qed.

(** ** Records that stand for trees *)

Lemma processMedia_represents (n : nat) :
  forall (item : value) (t : RawMediaRecord) (media : list MediaDescriptor),
    depth item < n ->
    represents item t ->
    processMedia n item media = (Ok tt, media ++ leaves t).
Proof.
  induction n as [|n IH]; intros item t media Hd Hr; [lia|].
  inversion Hr as [i variant rest u Hv Hu
                  | i image candidate rest u Hv Hi Hc Hu
                  | i items children Hv Hi Hc Hall]; subst.
  - now apply processMedia_video with (variant := variant) (rest := rest).
  - now apply processMedia_image
      with (image := image) (candidate := candidate) (rest := rest).
  - rewrite processMedia_carousel with (items := items) by assumption.
    assert (Hdepth : forall c, In c items -> depth c < n).
    { intros c Hin.
      pose proof (carousel_child_depth item (VArr items) c items Hc eq_refl Hin).
      lia. }
    clear Hc Hr. revert media.
    induction Hall as [|c t items children Hct Hall IHall]; intro media; simpl.
    + unfold ret. now rewrite app_nil_r.
    + unfold bind. rewrite (IH c t media); [|apply Hdepth; now left|exact Hct].
      rewrite IHall by (intros c' Hc'; apply Hdepth; now right).
      now rewrite app_assoc.
Qed.

Lemma for_each_represents (records : list value) (trees : list RawMediaRecord) :
  Forall2 represents records trees ->
  forall media,
    for_each records (fun item => processMedia (S (depth item)) item) media
    = (Ok tt, media ++ flat_map leaves trees).
Proof.
  induction 1 as [|item t records trees Hr Hall IH]; intro media;
    cbn [for_each flat_map].
  - unfold ret. now rewrite app_nil_r.
  - unfold bind.
    rewrite (processMedia_represents (S (depth item)) item t media); auto.
    rewrite IH. now rewrite app_assoc.
Qed.

Lemma encode_represents (t : RawMediaRecord) : represents (encode t) t.
Proof.
  revert t. fix IH 1. intros [u|u|children]; simpl.
  - eapply represents_video; reflexivity.
  - eapply represents_image; try reflexivity. exists VUndef. now split.
  - eapply represents_carousel;
      [exists VUndef; now split | exists VUndef; now split | reflexivity |].
    induction children as [|c children IHc]; simpl; constructor; auto.
Qed.

Lemma flatten_singleton (item : value) (media : list MediaDescriptor) :
  processMedia (S (depth item)) item [] = (Ok tt, media) ->
  flatten [item] = Ok media.
Proof.
  intro H. unfold flatten. cbn [for_each]. unfold bind. now rewrite H.
Qed.

Lemma flatten_singleton_throws (item : value) (e : thrown)
      (media : list MediaDescriptor) :
  processMedia (S (depth item)) item [] = (Throw e, media) ->
  flatten [item] = Throw e.
Proof.
  intro H. unfold flatten. cbn [for_each]. unfold bind. now rewrite H.
Qed.

(** Every tree of the data model has a JSON record, and flattening the
    records of a sequence of trees lists their leaves. *)
Lemma flatten_encode (trees : list RawMediaRecord) :
  flatten (map encode trees) = Ok (flat_map leaves trees).
Proof.
  unfold flatten. rewrite for_each_represents with (trees := trees).
  - reflexivity.
  - induction trees; constructor; auto using encode_represents.
Qed.

(** Flattening splices: the output for a sequence is the output for its
    first part followed by the output for the rest, and the first throw
    wins. *)
Lemma flatten_app (xs ys : list value) :
  flatten (xs ++ ys)
  = match flatten xs with
    | Ok a => match flatten ys with
              | Ok b => Ok (a ++ b)
              | Throw e => Throw e
              end
    | Throw e => Throw e
    end.
Proof.
  unfold flatten. rewrite for_each_app.
  destruct (for_each xs _ []) as [[[]|e] a]; [|reflexivity].
  rewrite (appends_only_for_each ys
             (fun item => processMedia (S (depth item)) item)
             (fun x _ => appends_only_processMedia (S (depth x)) x) a).
  destruct (for_each ys _ []) as [[[]|e] b]; reflexivity.
Qed.

(** A carousel record flattens to what its children flatten to. *)
Lemma flatten_carousel (item : value) (items : list value) :
  lacks item "video_versions" ->
  lacks item "image_versions2" ->
  get item "carousel_media" = Ok (VArr items) ->
  flatten [item] = flatten items.
Proof.
  intros Hv Hi Hc. unfold flatten. cbn [for_each].
  unfold bind at 1.
  rewrite (processMedia_carousel (depth item) item items [] Hv Hi Hc).
  rewrite (for_each_ext items (processMedia (depth item))
             (fun c => processMedia (S (depth c)) c)).
  - destruct (for_each items _ []) as [[[]|e] media]; reflexivity.
  - intros c Hin media.
    pose proof (carousel_child_depth item (VArr items) c items Hc eq_refl Hin).
    apply processMedia_fuel; lia.
Qed.

(** ** The Media Normalizer: the claims *)

(** C1 (as amended).  Shapes are tried in the order video, image, carousel.
    A record whose [video_versions] is truthy is handled as a video only,
    whatever image or carousel it carries: the call pushes exactly one
    descriptor of kind video or raises [TypeError].  When [video_versions]
    is a list, the descriptor is pushed, with the [url] of the first
    variant, if the list has a first variant that is neither [undefined]
    nor [null]; if the list is empty or its first variant is [undefined]
    or [null], the call raises [TypeError] and pushes nothing.  Likewise
    for a record without video whose [image_versions2] is truthy, with
    kind photo and the list [candidates], whatever carousel it carries. *)
Theorem C1_priority_video_image_carousel :
  forall (item : value),
    (forall vv, get item "video_versions" = Ok vv -> truthy vv = true ->
        forall n media,
          (exists u, processMedia (S n) item media
                     = (Ok tt, media ++ [Descriptor video u]))
          \/ processMedia (S n) item media = (Throw TypeError, media))
    /\
    (forall variant rest u,
        get item "video_versions" = Ok (VArr (variant :: rest)) ->
        get variant "url" = Ok u ->
        (forall n media,
            processMedia (S n) item media
            = (Ok tt, media ++ [Descriptor video u]))
        /\ flatten [item] = Ok [Descriptor video u])
    /\
    (forall l,
        get item "video_versions" = Ok (VArr l) ->
        l = [] \/ (exists v rest, l = v :: rest /\ is_nullish v = true) ->
        (forall n media,
            processMedia (S n) item media = (Throw TypeError, media))
        /\ flatten [item] = Throw TypeError)
    /\
    (forall iv, lacks item "video_versions" ->
        get item "image_versions2" = Ok iv -> truthy iv = true ->
        forall n media,
          (exists u, processMedia (S n) item media
                     = (Ok tt, media ++ [Descriptor photo u]))
          \/ processMedia (S n) item media = (Throw TypeError, media))
    /\
    (forall image candidate rest u,
        lacks item "video_versions" ->
        get item "image_versions2" = Ok image ->
        get image "candidates" = Ok (VArr (candidate :: rest)) ->
        get candidate "url" = Ok u ->
        (forall n media,
            processMedia (S n) item media
            = (Ok tt, media ++ [Descriptor photo u]))
        /\ flatten [item] = Ok [Descriptor photo u])
    /\
    (forall image l,
        lacks item "video_versions" ->
        get item "image_versions2" = Ok image ->
        get image "candidates" = Ok (VArr l) ->
        l = [] \/ (exists v rest, l = v :: rest /\ is_nullish v = true) ->
        (forall n media,
            processMedia (S n) item media = (Throw TypeError, media))
        /\ flatten [item] = Throw TypeError).
Proof.
  intro item. repeat apply conj.
  - intros vv Hv Ht n media. now apply processMedia_video_only with (vv := vv).
  - intros variant rest u Hv Hu.
    assert (H : forall n media,
               processMedia (S n) item media
               = (Ok tt, media ++ [Descriptor video u]))
      by (intros; eapply processMedia_video; eauto).
    split; [exact H|]. apply flatten_singleton. apply H.
  - intros l Hv Hl.
    assert (H : forall n media,
               processMedia (S n) item media = (Throw TypeError, media))
      by (intros; eapply processMedia_video_raises; eauto).
    split; [exact H|]. apply flatten_singleton_throws with (media := []).
    apply H.
  - intros iv Hv Hi Ht n media. now apply processMedia_image_only with (iv := iv).
  - intros image candidate rest u Hv Hi Hc Hu.
    assert (H : forall n media,
               processMedia (S n) item media
               = (Ok tt, media ++ [Descriptor photo u]))
      by (intros; eapply processMedia_image; eauto).
    split; [exact H|]. apply flatten_singleton. apply H.
  - intros image l Hv Hi Hc Hl.
    assert (H : forall n media,
               processMedia (S n) item media = (Throw TypeError, media))
      by (intros; eapply processMedia_image_raises; eauto).
    split; [exact H|]. apply flatten_singleton_throws with (media := []).
    apply H.
Qed.

Lemma C1_priority_witness :
  flatten [videoWithPoster] = Ok [Descriptor video (VStr "v.mp4")]
  /\ flatten [VObj [("image_versions2",
                     VObj [("candidates", VArr [VObj [("url", VStr "a.jpg")]])]);
                    ("carousel_media", VArr [videoLeaf])]]
     = Ok [Descriptor photo (VStr "a.jpg")]
  /\ flatten [VObj [("video_versions", VArr [VNull; VObj [("url", VStr "v.mp4")]]);
                    ("image_versions2",
                     VObj [("candidates", VArr [VObj [("url", VStr "a.jpg")]])])]]
     = Throw TypeError.
Proof.
  split; [|split].
  - apply (proj1 (proj2 (C1_priority_video_image_carousel videoWithPoster))
             (VObj [("url", VStr "v.mp4")]) [] (VStr "v.mp4"));
      reflexivity.
  - eapply (proj1 (proj2 (proj2 (proj2 (proj2
              (C1_priority_video_image_carousel _)))))
              _ (VObj [("url", VStr "a.jpg")]) [] (VStr "a.jpg"));
      try reflexivity.
    exists VUndef. split; reflexivity.
  - apply (proj1 (proj2 (proj2 (C1_priority_video_image_carousel _)))
             [VNull; VObj [("url", VStr "v.mp4")]]);
      [reflexivity|].
    right. exists VNull, [VObj [("url", VStr "v.mp4")]]. split; reflexivity.
Defined.

(** C1 as stated fails: this record carries a video-variant list and an
    image-variant list, and [flatten] raises a [TypeError] on it instead of
    emitting a video descriptor, because the video list is empty and line
    229 reads [url] of its missing first element. *)
Lemma C1_empty_video_list_raises :
  get videoWithoutVariants "video_versions" = Ok (VArr [])
  /\ get videoWithoutVariants "image_versions2"
     = Ok (VObj [("candidates", VArr [VObj [("url", VStr "a.jpg")]])])
  /\ flatten [videoWithoutVariants] = Throw TypeError
  /\ ~ (exists d, flatten [videoWithoutVariants] = Ok [d] /\ type d = video).
Proof.
  repeat split.
  intros (d & H & _). discriminate H.
Qed.

(** C2.  For every sequence of RawMediaRecord trees, [flatten] on their
    JSON records returns the leaf descriptors in depth-first, left-to-right
    order.  On any records whatever, the output for a sequence is the
    output for its first part followed by the output for the rest, and a
    carousel record flattens to what its children flatten to, in their
    order and in its place. *)
Theorem C2_flatten_depth_first :
  (forall (records : list value) (trees : list RawMediaRecord),
      Forall2 represents records trees ->
      flatten records = Ok (flat_map leaves trees))
  /\ (forall xs ys : list value,
         flatten (xs ++ ys)
         = match flatten xs with
           | Ok a => match flatten ys with
                     | Ok b => Ok (a ++ b)
                     | Throw e => Throw e
                     end
           | Throw e => Throw e
           end)
  /\ (forall (item : value) (items : list value),
         lacks item "video_versions" ->
         lacks item "image_versions2" ->
         get item "carousel_media" = Ok (VArr items) ->
         flatten [item] = flatten items).
Proof.
  split; [|split].
  - intros records trees H. unfold flatten.
    now rewrite (for_each_represents records trees H).
  - exact flatten_app.
  - exact flatten_carousel.
Qed.

Lemma C2_carousel_scenario :
  Forall2 represents [carouselOfBoth]
          [Carousel [ImageLeaf (VStr "a.jpg"); VideoLeaf (VStr "v.mp4")]]
  /\ flatten [carouselOfBoth]
     = Ok [Descriptor photo (VStr "a.jpg"); Descriptor video (VStr "v.mp4")]
  /\ flatten [carouselOfBoth] = flatten [imageLeaf; videoLeaf].
Proof.
  assert (H : Forall2 represents [carouselOfBoth]
                [Carousel [ImageLeaf (VStr "a.jpg"); VideoLeaf (VStr "v.mp4")]]).
  { repeat constructor.
    eapply represents_carousel;
      [exists VUndef; split; reflexivity
      |exists VUndef; split; reflexivity
      |reflexivity|].
    constructor; [|constructor; [|constructor]].
    - eapply represents_image; try reflexivity.
      exists VUndef; split; reflexivity.
    - eapply represents_video; reflexivity. }
  split; [exact H|]. split.
  - exact (proj1 C2_flatten_depth_first _ _ H).
  - apply (proj2 (proj2 C2_flatten_depth_first) carouselOfBoth
             [imageLeaf; videoLeaf]);
      [exists VUndef; split; reflexivity
      |exists VUndef; split; reflexivity
      |reflexivity].
Defined.




(** C8.  Normalization is a function of the records alone: equal inputs
    give equal outputs, what a call of [processMedia] returns and appends
    does not depend on what the [media] array already holds, and the bound
    on the call depth plays no part once it exceeds the record's depth. *)
Theorem C8_flatten_deterministic :
  forall (r1 r2 : list value),
    r1 = r2 ->
    flatten r1 = flatten r2
    /\ (forall n item, appends_only (processMedia n item))
    /\ (forall item n k media,
           depth item < n -> n <= k ->
           processMedia k item media = processMedia n item media).
Proof.
  intros r1 r2 ->. split; [reflexivity|]. split.
  - apply appends_only_processMedia.
  - intros item n k media Hd Hk. now apply processMedia_fuel.
Qed.

Lemma C8_deterministic_witness :
  flatten [carouselOfBoth] = flatten [carouselOfBoth].
Proof.
  exact (proj1 (C8_flatten_deterministic
                  [carouselOfBoth] [carouselOfBoth] eq_refl)).
Defined.

(** ** Reading a successful resolution backwards *)

Lemma bind_ok_inv {S A B} (c : M S A) (k : A -> M S B) (s s' : S) (b : B) :
  bind c k s = (Ok b, s') ->
  exists a s1, c s = (Ok a, s1) /\ k a s1 = (Ok b, s').
Proof.
  unfold bind. destruct (c s) as [[a|e] s1]; intro H; [|discriminate].
  now exists a, s1.
Qed.

Lemma ret_inv {S A} (a b : A) (s s' : S) :
  ret a s = (Ok b, s') -> b = a /\ s' = s.
Proof. unfold ret. intro H. now injection H as -> ->. Qed.

Tactic Notation "bind_inv" hyp(H) "as" ident(a) ident(E) :=
  let s := fresh "s" in
  apply bind_ok_inv in H; destruct H as (a & s & E & H);
  lazymatch type of E with
  | lift _ _ = _ => apply lift_inv in E; destruct E as [E ->]
  | _ => idtac
  end.




Lemma truthy_not_nullish (v : value) : truthy v = true -> is_nullish v = false.
Proof. destruct v; simpl; congruence. Qed.

Section ResolverFacts.
Variable W : World.

Lemma post_branch_inv (title postData : value) (requests requests' : list string)
      (t u : value) (rawMedia : list value) :
  post_branch W title postData requests = (Ok (t, u, rawMedia), requests') ->
  t = title
  /\ exists path rootView props media_id data items,
      get postData "url" = Ok path
      /\ u = VStr (site ++ toString path)
      /\ get postData "rootView" = Ok rootView
      /\ get rootView "props" = Ok props
      /\ get props "media_id" = Ok media_id
      /\ fetch_json W (media_info_url media_id) = Ok data
      /\ requests' = requests ++ [media_info_url media_id]
      /\ get data "items" = Ok items
      /\ iterate items = Ok rawMedia.
Proof.
  unfold post_branch. intro H.
  bind_inv H as path Epath. bind_inv H as rootView Eroot.
  bind_inv H as props Eprops. bind_inv H as media_id Eid.
  bind_inv H as data Edata.
  unfold page_fetch in Edata. injection Edata as Edata <-.
  bind_inv H as items Eitems. bind_inv H as spread Espread.
  apply ret_inv in H. destruct H as [H ->].
  injection H as -> -> ->. split; [reflexivity|].
  exists path, rootView, props, media_id, data, items.
  repeat split; assumption.
Qed.


Lemma computeForLink_inv (link : string) (requests requests' : list string)
      (r : ResolvedContent.t) :
  computeForLink W link requests = (Ok r, requests') ->
  exists details title url rawMedia media,
    page_details W link = Ok details
    /\ fetchRawMedia W details requests = (Ok (title, url, rawMedia), requests')
    /\ flatten rawMedia = Ok media
    /\ media <> []
    /\ r = ResolvedContent.mk title url media.
Proof.
  unfold computeForLink. intro H.
  bind_inv H as details Ed. bind_inv H as fetched Ef.
  destruct fetched as [[title url] rawMedia].
  bind_inv H as media Em. unfold finish in H.
  destruct media as [|d media]; simpl in H; [discriminate|].
  apply ret_inv in H. destruct H as [-> ->].
  exists details, title, url, rawMedia, (d :: media).
  repeat split; auto. discriminate.
Qed.

Lemma computeForLink_normalized (link : string) (details title url : value)
      (rawMedia : list value) (media : list MediaDescriptor)
      (requests requests' : list string) :
  page_details W link = Ok details ->
  fetchRawMedia W details requests = (Ok (title, url, rawMedia), requests') ->
  flatten rawMedia = Ok media ->
  computeForLink W link requests = finish title url media requests'.
Proof.
  intros Hd Hf Hm. unfold computeForLink.
  rewrite Hd, bind_lift_ok. unfold bind at 1. rewrite Hf.
  now rewrite Hm, bind_lift_ok.
Qed.

Lemma fetchRawMedia_unhandled (details : value) (requests : list string) :
  is_nullish (first_match (findPostData W details)) = true ->
  truthy (first_match (findStoryData W details)) = false ->
  fetchRawMedia W details requests
  = (Throw (Error "Unhandled page type"), requests).
Proof.
  intros Hp Hs. unfold fetchRawMedia, initial_title.
  rewrite Hp, bind_lift_ok.
  assert (Ht : truthy (first_match (findPostData W details)) = false)
    by (destruct (first_match (findPostData W details)); simpl in *; congruence).
  now rewrite Ht, Hs.
Qed.

Lemma requests_only_lift {A} (P : string -> Prop) (o : outcome A) :
  requests_only P (lift o).
Proof.
  intros requests out requests' H. unfold lift in H. injection H as _ <-.
  exists []. split; [now rewrite app_nil_r|constructor].
Qed.

Lemma requests_only_ret {A} (P : string -> Prop) (a : A) :
  requests_only P (ret a).
Proof. apply (requests_only_lift P (Ok a)). Qed.

Lemma requests_only_bind {A B} (P : string -> Prop)
      (c : M (list string) A) (k : A -> M (list string) B) :
  requests_only P c -> (forall a, requests_only P (k a)) ->
  requests_only P (bind c k).
Proof.
  intros Hc Hk requests out requests' H. unfold bind in H.
  destruct (c requests) as [[a|e] s1] eqn:E.
  - destruct (Hc _ _ _ E) as (m1 & -> & H1).
    destruct (Hk a _ _ _ H) as (m2 & -> & H2).
    exists (m1 ++ m2). split; [now rewrite app_assoc|].
    apply Forall_app. now split.
  - injection H as _ <-. exact (Hc _ _ _ E).
Qed.

Lemma requests_only_page_fetch (P : string -> Prop) (u : string) :
  P u -> requests_only P (page_fetch W u).
Proof.
  intros Hu requests out requests' H. unfold page_fetch in H.
  injection H as _ <-. exists [u]. split; [reflexivity|].
  constructor; [exact Hu|constructor].
Qed.

Lemma post_branch_requests (title postData : value) :
  requests_only (fun u => exists media_id, u = media_info_url media_id)
                (post_branch W title postData).
Proof.
  unfold post_branch.
  repeat first
    [ apply requests_only_bind; [apply requests_only_lift|intros ?]
    | apply requests_only_bind;
      [apply requests_only_page_fetch; eexists; reflexivity|intros ?]
    | apply requests_only_ret ].
Qed.

Lemma fetchRawMedia_post (details : value) (requests : list string) :
  truthy (first_match (findPostData W details)) = true ->
  fetchRawMedia W details requests
  = bind (lift (initial_title (first_match (findPostData W details))))
         (fun title => post_branch W title (first_match (findPostData W details)))
         requests.
Proof.
  intro Hp. unfold fetchRawMedia. apply bind_ext. intros a s' _.
  now rewrite Hp.
Qed.

End ResolverFacts.

(** ** The Batch Runner: its invariant *)

Module BatchRunnerFacts.
Import BatchRunner.
Section Facts.
Variables Input Output : Type.
Variable fn : Input -> outcome Output.
Variable N : nat.

Implicit Type s : state Input Output.

Lemma dispatch_spec (n : nat) :
  forall s,
    length (active s) <= N ->
    length (active (dispatch N n s)) <= N
    /\ Permutation (queue (dispatch N n s) ++ active (dispatch N n s))
                   (queue s ++ active s)
    /\ outcomes (dispatch N n s) = outcomes s
    /\ (length (queue s) <= n ->
        queue (dispatch N n s) = [] \/ N <= length (active (dispatch N n s)))
    /\ (forall y, In y (active s) -> In y (active (dispatch N n s))).
Proof.
  induction n as [|n IH]; intros s Hle; simpl.
  - repeat split; auto.
    intro H. left. destruct (queue s); [reflexivity|simpl in H; lia].
  - destruct (queue s) as [|x rest] eqn:Eq.
    + repeat split; auto. rewrite Eq. reflexivity.
    + destruct (Nat.ltb (length (active s)) N) eqn:El.
      * apply Nat.ltb_lt in El.
        set (s1 := {| queue := rest; active := active s ++ [x];
                      outcomes := outcomes s |}).
        destruct (IH s1) as (H1 & H2 & H3 & H4 & H5).
        { simpl. rewrite length_app. simpl. lia. }
        repeat split; auto.
        -- eapply perm_trans; [exact H2|]. simpl.
           rewrite app_assoc.
           apply Permutation_sym, Permutation_cons_append.
        -- intro Hl. apply H4. simpl in *. lia.
        -- intros y Hy. apply H5. simpl. apply in_or_app. now left.
      * apply Nat.ltb_ge in El.
        repeat split; auto. rewrite Eq. reflexivity.
Qed.

Lemma remove_nth_perm {A} (k : nat) :
  forall (l : list A) (x : A),
    nth_error l k = Some x -> Permutation l (x :: remove_nth k l).
Proof.
  induction k as [|k IH]; intros [|y l] x H; simpl in *; try discriminate.
  - injection H as ->. reflexivity.
  - rewrite (IH l x H) at 1. apply perm_swap.
Qed.

Lemma moved_to_outcomes {A} (q a a' o : list A) (x : A) :
  Permutation a (x :: a') ->
  Permutation ((q ++ a') ++ o ++ [x]) (q ++ a ++ o).
Proof.
  intro H. rewrite <- app_assoc. apply Permutation_app_head.
  apply perm_trans with (x :: a' ++ o).
  - rewrite app_assoc. apply Permutation_sym, Permutation_cons_append.
  - change (x :: a' ++ o) with ((x :: a') ++ o).
    apply Permutation_app_tail, Permutation_sym, H.
Qed.

Lemma settle_invariant (items : list Input) (k : nat) (s s' : state Input Output) :
  invariant fn N items s -> settle fn N k s = Some s' -> invariant fn N items s'.
Proof.
  intros (Hle & Hperm & Hout & Hfull) H. unfold BatchRunner.settle in H.
  destruct (nth_error (active s) k) as [x|] eqn:Ex; [|discriminate].
  injection H as <-.
  pose proof (remove_nth_perm k (active s) x Ex) as Hrem.
  set (s1 := {| queue := queue s; active := remove_nth k (active s);
                outcomes := outcomes s ++ [(x, fn x)] |}).
  assert (Hlen : length (active s1) <= N).
  { simpl. apply Permutation_length in Hrem. simpl in Hrem. lia. }
  destruct (dispatch_spec (length (queue s)) s1 Hlen)
    as (H1 & H2 & H3 & H4 & _).
  split; [exact H1|]. split; [|split].
  - rewrite app_assoc, H3.
    eapply perm_trans; [apply Permutation_app_tail; exact H2|].
    eapply perm_trans; [|exact Hperm].
    simpl. rewrite map_app. simpl. apply moved_to_outcomes. exact Hrem.
  - rewrite H3. simpl. intros y o Hin.
    apply in_app_or in Hin. destruct Hin as [Hin|[Hin|[]]]; [now apply Hout|].
    now injection Hin as <- <-.
  - apply H4. simpl. lia.
Qed.

Lemma start_invariant (items : list Input) : invariant fn N items (start N items).
Proof.
  unfold BatchRunner.start.
  set (s0 := {| queue := items; active := []; outcomes := [] |}).
  destruct (dispatch_spec (length items) s0) as (H1 & H2 & H3 & H4 & _);
    [simpl; lia|].
  split; [exact H1|]. split; [|split].
  - rewrite app_assoc, H3. simpl. rewrite app_nil_r.
    eapply perm_trans; [exact H2|]. simpl. now rewrite app_nil_r.
  - rewrite H3. simpl. tauto.
  - apply H4. simpl. lia.
Qed.

Lemma run_invariant (items : list Input) (order : list nat) :
  forall s s' : state Input Output,
    invariant fn N items s -> run fn N order s = Some s' -> invariant fn N items s'.
Proof.
  induction order as [|k order IH]; intros s s' Hinv H; simpl in H.
  - now injection H as <-.
  - destruct (settle fn N k s) as [s1|] eqn:E; [|discriminate].
    eapply IH; [|exact H]. eapply settle_invariant; eauto.
Qed.

Lemma settle_keeps_siblings (k : nat) (s s' : state Input Output) :
  length (active s) <= N ->
  settle fn N k s = Some s' ->
  forall y, In y (remove_nth k (active s)) -> In y (active s').
Proof.
  intros Hle H y Hy. unfold BatchRunner.settle in H.
  destruct (nth_error (active s) k) as [x|] eqn:Ex; [|discriminate].
  injection H as <-.
  pose proof (remove_nth_perm k (active s) x Ex) as Hrem.
  apply Permutation_length in Hrem. simpl in Hrem.
  set (s1 := {| queue := queue s; active := remove_nth k (active s);
                outcomes := outcomes s ++ [(x, fn x)] |}).
  assert (Hlen : length (active s1) <= N) by (simpl; lia).
  exact (proj2 (proj2 (proj2 (proj2
           (dispatch_spec (length (queue s)) s1 Hlen)))) y Hy).
Qed.

Lemma completed_iff (items : list Input) (s : state Input Output) :
  invariant fn N items s ->
  (completed s = true <-> length (outcomes s) = length items).
Proof.
  intros (_ & Hperm & _ & _).
  apply Permutation_length in Hperm.
  rewrite !length_app, length_map in Hperm.
  unfold completed.
  destruct (queue s), (active s); simpl in *; split; intro; try lia;
    try discriminate; reflexivity.
Qed.

Lemma completed_outcomes (items : list Input) (s : state Input Output) :
  invariant fn N items s -> completed s = true ->
  Permutation (map fst (outcomes s)) items.
Proof.
  intros (_ & Hperm & _ & _) Hc. unfold completed in Hc.
  destruct (queue s), (active s); try discriminate. exact Hperm.
Qed.

(** While something is unsettled and the limit is positive, the
    invocation in the first slot can settle; settling them one by one
    completes the run. *)
Lemma run_to_completion (items : list Input) (n : nat) :
  1 <= N ->
  forall s,
    invariant fn N items s ->
    length (outcomes s) + n = length items ->
    exists s', run fn N (repeat 0 n) s = Some s' /\ completed s' = true.
Proof.
  intro HN. induction n as [|n IH]; intros s Hinv Hn.
  - exists s. split; [reflexivity|].
    apply (completed_iff items s Hinv). lia.
  - destruct Hinv as (Hle & Hperm & Hout & Hfull).
    assert (Hact : active s <> []).
    { intro Ha.
      pose proof (Permutation_length Hperm) as Hl.
      rewrite !length_app, length_map, Ha in Hl. simpl in Hl.
      destruct Hfull as [Hq|Hf].
      - rewrite Hq in Hl. simpl in Hl. lia.
      - rewrite Ha in Hf. simpl in Hf. lia. }
    destruct (active s) as [|x rest] eqn:Ea; [congruence|].
    assert (Hinv : invariant fn N items s).
    { unfold BatchRunner.invariant. rewrite Ea. auto. }
    destruct (settle fn N 0 s) as [s1|] eqn:Es.
    + simpl. rewrite Es. apply IH.
      * eapply settle_invariant; eauto.
      * unfold BatchRunner.settle in Es. rewrite Ea in Es. simpl in Es.
        injection Es as <-.
        set (s1 := {| queue := queue s; active := rest;
                      outcomes := outcomes s ++ [(x, fn x)] |}).
        assert (Hlen : length (active s1) <= N)
          by (simpl; simpl in Hle; lia).
        rewrite (proj1 (proj2 (proj2
                   (dispatch_spec (length (queue s)) s1 Hlen)))).
        simpl. rewrite length_app. simpl. lia.
    + unfold BatchRunner.settle in Es. rewrite Ea in Es. discriminate.
Qed.

End Facts.
End BatchRunnerFacts.

(** ** Reading a resolution forwards *)

Lemma bind_page_fetch {B} (W : World) (u : string)
      (k : value -> M (list string) B) (requests : list string) :
  bind (page_fetch W u) k requests
  = match fetch_json W u with
    | Ok data => k data (requests ++ [u])
    | Throw e => (Throw e, requests ++ [u])
    end.
Proof. unfold bind, page_fetch. now destruct (fetch_json W u). Qed.


Lemma get_nullish (v : value) (k : string) :
  is_nullish v = true -> get v k = Throw TypeError.
Proof. destruct v; simpl; congruence. Qed.

Lemma string_app_assoc (a b c : string) :
  ((a ++ b) ++ c)%string = (a ++ (b ++ c))%string.
Proof. induction a as [|x a IH]; simpl; [reflexivity|now rewrite IH]. Qed.

Lemma string_app_nil_r (a : string) : (a ++ EmptyString)%string = a.
Proof. induction a as [|x a IH]; simpl; [reflexivity|now rewrite IH]. Qed.

Lemma bind_throw {S A B} (c : M S A) (k : A -> M S B) (e : thrown) (s s' : S) :
  c s = (Throw e, s') -> bind c k s = (Throw e, s').
Proof. intro H. unfold bind. now rewrite H. Qed.


Lemma get_ok_not_nullish (v x : value) (k : string) :
  get v k = Ok x -> is_nullish v = false.
Proof. destruct v; simpl; congruence. Qed.

(** ** The dotted paths of [lodash.get] *)




(** ** The Content Resolver: the claims *)

(** C3.  When the page holds neither a post descriptor nor a story
    descriptor, [computeForLink] throws the [Error] of line 219, whose
    message is ['Unhandled page type'], before any request is made.  In a
    batch the failure is the outcome of that link alone: the run still
    completes with one outcome per link, each link with its own. *)
Theorem C3_unhandled_page_type :
  forall (W : World) (link : string) (details : value),
    page_details W link = Ok details ->
    is_nullish (first_match (findPostData W details)) = true ->
    truthy (first_match (findStoryData W details)) = false ->
    (forall requests,
        computeForLink W link requests
        = (Throw (Error "Unhandled page type"), requests))
    /\ (forall links order s,
           In link links ->
           BatchRunner.run (resolver W) concurrency order
                           (BatchRunner.start concurrency links) = Some s ->
           BatchRunner.completed s = true ->
           In (link, Throw (Error "Unhandled page type"))
              (BatchRunner.outcomes s)
           /\ length (BatchRunner.outcomes s) = length links
           /\ forall other, In other links ->
                            In (other, resolver W other) (BatchRunner.outcomes s)).
Proof.
  intros W link details Hd Hp Hs.
  assert (H : forall requests,
             computeForLink W link requests
             = (Throw (Error "Unhandled page type"), requests)).
  { intro requests. unfold computeForLink. rewrite Hd, bind_lift_ok.
    unfold bind. now rewrite fetchRawMedia_unhandled. }
  split; [exact H|].
  intros links order s Hin Hrun Hc.
  pose proof (BatchRunnerFacts.run_invariant
                _ _ (resolver W) concurrency links order _ s
                (BatchRunnerFacts.start_invariant
                   _ _ (resolver W) concurrency links)
                Hrun) as Hinv.
  pose proof (BatchRunnerFacts.completed_outcomes
                _ _ (resolver W) concurrency links s Hinv Hc) as Hperm.
  assert (Hown : forall other, In other links ->
                   In (other, resolver W other) (BatchRunner.outcomes s)).
  { intros other Ho.
    apply (Permutation_in _ (Permutation_sym Hperm)) in Ho.
    apply in_map_iff in Ho. destruct Ho as ([x o] & Hx & Hxo).
    simpl in Hx. subst x.
    destruct Hinv as (_ & _ & Hout & _).
    now rewrite <- (Hout other o Hxo). }
  split; [|split].
  - specialize (Hown link Hin). unfold resolver in Hown at 1.
    now rewrite H in Hown.
  - apply Permutation_length in Hperm. now rewrite length_map in Hperm.
  - exact Hown.
Qed.

Lemma C3_unhandled_witness :
  computeForLink two_pages "https://www.instagram.com/about/" []
  = (Throw (Error "Unhandled page type"), [])
  /\ forall s,
      BatchRunner.run (resolver two_pages) concurrency [1; 0]
        (BatchRunner.start concurrency
           ["https://www.instagram.com/p/abc/";
            "https://www.instagram.com/about/"]) = Some s ->
      In ("https://www.instagram.com/about/",
          Throw (Error "Unhandled page type")) (BatchRunner.outcomes s)
      /\ length (BatchRunner.outcomes s) = 2
      /\ In ("https://www.instagram.com/p/abc/",
             Ok (ResolvedContent.mk (VStr "A post")
                   (VStr "https://www.instagram.com/p/abc/")
                   [Descriptor photo (VStr "a.jpg")]))
            (BatchRunner.outcomes s).
Proof.
  pose proof (C3_unhandled_page_type
                two_pages "https://www.instagram.com/about/"
                (VStr "https://www.instagram.com/about/")
                eq_refl eq_refl eq_refl) as [H1 H2].
  split; [apply H1|].
  intros s Hs.
  destruct (H2 ["https://www.instagram.com/p/abc/";
                "https://www.instagram.com/about/"] [1; 0] s)
    as (Ha & Hl & Ho).
  - right; left; reflexivity.
  - exact Hs.
  - vm_compute in Hs. injection Hs as <-. reflexivity.
  - split; [exact Ha|]. split; [exact Hl|].
    apply (Ho "https://www.instagram.com/p/abc/"). left; reflexivity.
Defined.

(** C4.  A resolution that reaches the Normalized state returns
    [{title, url, media}] with the normalized list when that list is not
    empty, and throws the [Error] of line 248, whose message is
    ['No media found'], when it is; so the media of every returned result
    is non-empty. *)
Theorem C4_done_or_no_media :
  (forall (W : World) (link : string) (details title url : value)
          (rawMedia : list value) (media : list MediaDescriptor)
          (requests requests' : list string),
      page_details W link = Ok details ->
      fetchRawMedia W details requests = (Ok (title, url, rawMedia), requests') ->
      flatten rawMedia = Ok media ->
      (media <> [] ->
       computeForLink W link requests
       = (Ok (ResolvedContent.mk title url media), requests'))
      /\ (media = [] ->
          computeForLink W link requests
          = (Throw (Error "No media found"), requests')))
  /\ (forall (W : World) (link : string) (requests requests' : list string)
             (r : ResolvedContent.t),
         computeForLink W link requests = (Ok r, requests') ->
         ResolvedContent.media r <> []).
Proof.
  split.
  - intros W link details title url rawMedia media requests requests' Hd Hf Hm.
    rewrite (computeForLink_normalized W link details title url rawMedia media
               requests requests' Hd Hf Hm).
    unfold finish. split.
    + intro Hne. destruct media; [congruence|reflexivity].
    + intros ->. reflexivity.
  - intros W link requests requests' r H.
    destruct (computeForLink_inv W link requests requests' r H)
      as (details & title & url & rawMedia & media & _ & _ & _ & Hne & ->).
    exact Hne.
Qed.

Lemma C4_done_witness :
  computeForLink (page_with [postDescriptor] [] (Ok postResponse)) "l" []
  = (Ok (ResolvedContent.mk (VStr "A post")
                            (VStr "https://www.instagram.com/p/abc/")
                            [Descriptor photo (VStr "a.jpg")]),
     ["https://i.instagram.com/api/v1/media/123/info/"])
  /\ computeForLink
       (page_with [postDescriptor] [] (Ok (VObj [("items", VArr [])]))) "l" []
     = (Throw (Error "No media found"),
        ["https://i.instagram.com/api/v1/media/123/info/"]).
Proof.
  split.
  - apply (proj1 (proj1 C4_done_or_no_media
                    (page_with [postDescriptor] [] (Ok postResponse)) "l"
                    (VArr []) (VStr "A post")
                    (VStr "https://www.instagram.com/p/abc/")
                    [imageLeaf] [Descriptor photo (VStr "a.jpg")] []
                    ["https://i.instagram.com/api/v1/media/123/info/"]
                    eq_refl eq_refl eq_refl)).
    discriminate.
  - apply (proj2 (proj1 C4_done_or_no_media
                    (page_with [postDescriptor] []
                               (Ok (VObj [("items", VArr [])]))) "l"
                    (VArr []) (VStr "A post")
                    (VStr "https://www.instagram.com/p/abc/")
                    [] [] []
                    ["https://i.instagram.com/api/v1/media/123/info/"]
                    eq_refl eq_refl eq_refl)).
    reflexivity.
Defined.

(** C5 (as amended).  In a resolution classified as a post that returns a
    result, [postData.meta] is an object, the title of the result is
    [postData.meta.title] when that is neither [undefined] nor [null] and
    [null] otherwise, and its url is the site's domain followed by
    [postData.url], for a path that the conversion to a string renders
    exactly (a string, in practice).  When [postData.meta] is [undefined]
    or [null], line 155 raises a [TypeError] before any request: there is
    no result and no [null] title. *)
Theorem C5_post_title_and_url :
  forall (W : World) (link : string) (details : value)
         (requests : list string),
    page_details W link = Ok details ->
    truthy (first_match (findPostData W details)) = true ->
    let postData := first_match (findPostData W details) in
    (forall (r : ResolvedContent.t) (requests' : list string),
        computeForLink W link requests = (Ok r, requests') ->
        (exists meta t,
            get postData "meta" = Ok meta
            /\ is_nullish meta = false
            /\ get meta "title" = Ok t
            /\ ResolvedContent.title r = (if is_nullish t then VNull else t))
        /\ (forall path,
               get postData "url" = Ok path ->
               renders_exactly path = true ->
               ResolvedContent.url r
               = VStr ("https://www.instagram.com" ++ toString path)))
    /\ (forall meta,
           get postData "meta" = Ok meta ->
           is_nullish meta = true ->
           computeForLink W link requests = (Throw TypeError, requests)).
Proof.
  intros W link details requests Hd Hp postData. split.
  - intros r requests' H.
    destruct (computeForLink_inv W link requests requests' r H)
      as (details' & title & url & rawMedia & media & Hd' & Hf & _ & _ & ->).
    rewrite Hd in Hd'. injection Hd' as <-.
    rewrite (fetchRawMedia_post W details requests Hp) in Hf.
    fold postData in Hf.
    bind_inv Hf as title0 Et.
    destruct (post_branch_inv W title0 postData _ _ _ _ _ Hf)
      as (-> & path & rootView & props & media_id & data & items
          & Hpath & -> & _).
    unfold initial_title in Et.
    rewrite (truthy_not_nullish postData Hp) in Et.
    destruct (get postData "meta") as [meta|] eqn:Em; [|discriminate].
    destruct (get meta "title") as [t|] eqn:Ett; [|discriminate].
    injection Et as <-. simpl. split.
    + exists meta, t. repeat split; auto.
      exact (get_ok_not_nullish meta t "title" Ett).
    + intros path' Hpath' _. rewrite Hpath in Hpath'. now injection Hpath' as <-.
  - intros meta Hmeta Hnull. unfold computeForLink.
    rewrite Hd, bind_lift_ok. apply bind_throw.
    rewrite (fetchRawMedia_post W details requests Hp). fold postData.
    unfold initial_title.
    rewrite (truthy_not_nullish postData Hp), Hmeta.
    rewrite (get_nullish meta "title" Hnull).
    rewrite bind_lift_throw. reflexivity.
Qed.

Lemma C5_post_witness :
  let W := page_with [postDescriptor] [] (Ok postResponse) in
  let r := ResolvedContent.mk (VStr "A post")
                              (VStr "https://www.instagram.com/p/abc/")
                              [Descriptor photo (VStr "a.jpg")] in
  computeForLink W "l" []
  = (Ok r, ["https://i.instagram.com/api/v1/media/123/info/"])
  /\ (exists meta t,
         get postDescriptor "meta" = Ok meta
         /\ is_nullish meta = false
         /\ get meta "title" = Ok t
         /\ ResolvedContent.title r = (if is_nullish t then VNull else t))
  /\ ResolvedContent.url r
     = VStr ("https://www.instagram.com" ++ toString (VStr "/p/abc/")).
Proof.
  intros W r. split; [reflexivity|].
  destruct (proj1 (C5_post_title_and_url W "l" (VArr []) [] eq_refl eq_refl)
                  r ["https://i.instagram.com/api/v1/media/123/info/"]
                  eq_refl)
    as [Htitle Hurl].
  split; [exact Htitle|].
  exact (Hurl (VStr "/p/abc/") eq_refl eq_refl).
Defined.

(** A post descriptor without [meta]: the claim's words give the result a
    [null] title; the program raises a [TypeError] at line 155, before any
    request, and returns no result. *)
Lemma C5_post_without_meta_raises :
  let W := page_with [postWithoutMeta] [] (Ok postResponse) in
  truthy (first_match (findPostData W (VArr []))) = true
  /\ get postWithoutMeta "meta" = Ok VUndef
  /\ computeForLink W "l" [] = (Throw TypeError, [])
  /\ ~ (exists r requests',
           computeForLink W "l" [] = (Ok r, requests')
           /\ ResolvedContent.title r = VNull).
Proof.
  intros W. repeat split.
  intros (r & requests' & H & _). discriminate H.
Qed.




(** C10.  When the page holds a post descriptor, the resolution is the
    post's whatever the story searcher finds: the [case !!postData] is
    taken, the result and the requests made are those of the same page
    with any other answer of the story searcher (with none at all, in
    particular), and the reel endpoint is never requested. *)
Theorem C10_post_takes_precedence :
  forall (W : World) (details : value) (requests : list string),
    truthy (first_match (findPostData W details)) = true ->
    let postData := first_match (findPostData W details) in
    fetchRawMedia W details requests
    = bind (lift (initial_title postData))
           (fun title => post_branch W title postData) requests
    /\ (forall story,
           fetchRawMedia (with_story W story) details requests
           = fetchRawMedia W details requests)
    /\ (forall story link,
           page_details W link = Ok details ->
           computeForLink (with_story W story) link requests
           = computeForLink W link requests)
    /\ (forall out requests',
           fetchRawMedia W details requests = (out, requests') ->
           exists made,
             requests' = requests ++ made
             /\ forall userId, ~ In (reels_media_url userId) made).
Proof.
  intros W details requests Hp postData.
  assert (Hstory : forall story,
             fetchRawMedia (with_story W story) details requests
             = fetchRawMedia W details requests).
  { intro story.
    rewrite (fetchRawMedia_post W details requests Hp).
    rewrite (fetchRawMedia_post (with_story W story) details requests Hp).
    reflexivity. }
  split; [apply (fetchRawMedia_post W details requests Hp)|].
  split; [exact Hstory|]. split.
  - intros story link Hd. unfold computeForLink.
    change (page_details (with_story W story) link) with (page_details W link).
    rewrite Hd, !bind_lift_ok. unfold bind at 1 3. now rewrite Hstory.
  - intros out requests' H.
    rewrite (fetchRawMedia_post W details requests Hp) in H.
    assert (Hreq : requests_only
                     (fun u => exists media_id, u = media_info_url media_id)
                     (bind (lift (initial_title postData))
                           (fun title => post_branch W title postData))).
    { apply requests_only_bind; [apply requests_only_lift|].
      intro title. apply post_branch_requests. }
    destruct (Hreq requests out requests' H) as (made & -> & Hmade).
    exists made. split; [reflexivity|].
    intros userId Hin.
    rewrite Forall_forall in Hmade.
    destruct (Hmade _ Hin) as (media_id & Heq).
    unfold media_info_url, reels_media_url in Heq. simpl in Heq. congruence.
Qed.

Lemma C10_post_witness :
  computeForLink
    (with_story (page_with [postDescriptor] [] (Ok postResponse))
                (fun _ => [storyDescriptor])) "l" []
  = computeForLink (page_with [postDescriptor] [] (Ok postResponse)) "l" [].
Proof.
  exact (proj1 (proj2 (proj2
           (C10_post_takes_precedence
              (page_with [postDescriptor] [] (Ok postResponse)) (VArr []) []
              eq_refl)))
           (fun _ => [storyDescriptor]) "l" eq_refl).
Defined.

(** ** The Batch Runner: the claim *)

(** C9.  In every state of a run over M items under limit N: at most N
    invocations are active, and exactly min(N, unsettled) of them; no item
    is lost or duplicated, so a settlement, success or failure, leaves its
    siblings active and the queue intact; every outcome recorded is the
    one of its own item; the run is complete exactly when M outcomes are
    recorded, which are then the outcomes of the M items; and with a
    positive limit every run can be carried on to completion. *)
Theorem C9_bounded_concurrency :
  forall (Input Output : Type) (fn : Input -> outcome Output) (N : nat)
         (items : list Input) (order : list nat)
         (s : BatchRunner.state Input Output),
    BatchRunner.run fn N order (BatchRunner.start N items) = Some s ->
    length (BatchRunner.active s) <= N
    /\ length (BatchRunner.active s)
       = Nat.min N (length (BatchRunner.active s) + length (BatchRunner.queue s))
    /\ Permutation (BatchRunner.queue s ++ BatchRunner.active s
                    ++ map fst (BatchRunner.outcomes s)) items
    /\ (forall x o, In (x, o) (BatchRunner.outcomes s) -> o = fn x)
    /\ (forall k s',
           BatchRunner.settle fn N k s = Some s' ->
           forall y, In y (BatchRunner.remove_nth k (BatchRunner.active s)) ->
                     In y (BatchRunner.active s'))
    /\ (BatchRunner.completed s = true
        <-> length (BatchRunner.outcomes s) = length items)
    /\ (BatchRunner.completed s = true ->
        Permutation (map fst (BatchRunner.outcomes s)) items)
    /\ (1 <= N ->
        exists rest s',
          BatchRunner.run fn N rest s = Some s'
          /\ BatchRunner.completed s' = true).
Proof.
  intros Input Output fn N items order s Hrun.
  pose proof (BatchRunnerFacts.run_invariant
                _ _ fn N items order _ s
                (BatchRunnerFacts.start_invariant _ _ fn N items) Hrun) as Hinv.
  pose proof Hinv as (Hle & Hperm & Hout & Hfull).
  split; [exact Hle|]. split.
  { destruct Hfull as [Hq|Hf]; [rewrite Hq; simpl|]; lia. }
  split; [exact Hperm|]. split; [exact Hout|]. split.
  { intros k s' Hs. now apply (BatchRunnerFacts.settle_keeps_siblings _ _ fn N k s s'). }
  split; [exact (BatchRunnerFacts.completed_iff _ _ fn N items s Hinv)|].
  split; [exact (BatchRunnerFacts.completed_outcomes _ _ fn N items s Hinv)|].
  intro HN.
  pose proof (Permutation_length Hperm) as Hl.
  rewrite !length_app, length_map in Hl.
  destruct (BatchRunnerFacts.run_to_completion
              _ _ fn N items
              (length items - length (BatchRunner.outcomes s)) HN s Hinv)
    as (s' & Hs' & Hc); [lia|].
  now exists (repeat 0 (length items - length (BatchRunner.outcomes s))), s'.
Qed.

Lemma C9_bounded_witness :
  exists s,
    BatchRunner.run (resolver two_pages) 2 [1; 0]
      (BatchRunner.start 2
         ["https://www.instagram.com/about/";
          "https://www.instagram.com/p/abc/";
          "https://www.instagram.com/help/"]) = Some s
    /\ length (BatchRunner.active s) <= 2
    /\ BatchRunner.active s = ["https://www.instagram.com/help/"]
    /\ length (BatchRunner.outcomes s) = 2.
Proof.
  eexists. split; [vm_compute; reflexivity|].
  split; [|split; reflexivity].
  refine (proj1 (C9_bounded_concurrency
                   string ResolvedContent.t (resolver two_pages) 2
                   ["https://www.instagram.com/about/";
                    "https://www.instagram.com/p/abc/";
                    "https://www.instagram.com/help/"] [1; 0] _ _)).
  vm_compute; reflexivity.
Defined.

(** * Further properties of the program *)

(** ** The searchers' filters *)

Lemma strict_eq_VStr (x : value) (s : string) :
  strict_eq x (VStr s) = true -> x = VStr s.
Proof.
  destruct x; simpl; try discriminate.
  intro H. apply String.eqb_eq in H. now subst.
Qed.

Lemma get_array_named (items : list value) :
  get (VArr items) "tracePolicy" = Ok VUndef.
Proof. reflexivity. Qed.

(** X1.  The three filters never throw, on any value.  A value the post
    filter accepts is an object whose [tracePolicy] is ['polaris.postPage'];
    it is truthy, and neither the story filter nor the shared-data filter
    accepts it.  The same holds for the story filter with
    ['polaris.StoriesPage'], and a value the shared-data filter accepts is
    an array that starts with ['XIGSharedData'], which the other two
    reject. *)
Theorem X1_filters_exclusive :
  forall item : value,
    ((exists b, postDataFilter item = Ok b)
     /\ (exists b, storyDataFilter item = Ok b)
     /\ (exists b, sharedDataFilter item = Ok b))
    /\ (postDataFilter item = Ok true ->
        (exists fields,
            item = VObj fields
            /\ own fields "tracePolicy" = VStr "polaris.postPage")
        /\ truthy item = true
        /\ storyDataFilter item = Ok false
        /\ sharedDataFilter item = Ok false)
    /\ (storyDataFilter item = Ok true ->
        (exists fields,
            item = VObj fields
            /\ own fields "tracePolicy" = VStr "polaris.StoriesPage")
        /\ truthy item = true
        /\ postDataFilter item = Ok false
        /\ sharedDataFilter item = Ok false)
    /\ (sharedDataFilter item = Ok true ->
        (exists rest, item = VArr (VStr "XIGSharedData" :: rest))
        /\ postDataFilter item = Ok false
        /\ storyDataFilter item = Ok false).
Proof.
  intro item. split; [|split; [|split]].
  - destruct item; unfold postDataFilter, storyDataFilter, sharedDataFilter,
      tagged; simpl; repeat split; eexists; reflexivity.
  - destruct item as [| | | | |items|fields];
      unfold postDataFilter, tagged; simpl; try discriminate.
    intro H. injection H as H. apply strict_eq_VStr in H.
    split; [exists fields; auto|]. split; [reflexivity|].
    unfold storyDataFilter, sharedDataFilter, tagged. simpl.
    rewrite H. split; reflexivity.
  - destruct item as [| | | | |items|fields];
      unfold storyDataFilter, tagged; simpl; try discriminate.
    intro H. injection H as H. apply strict_eq_VStr in H.
    split; [exists fields; auto|]. split; [reflexivity|].
    unfold postDataFilter, sharedDataFilter, tagged. simpl.
    rewrite H. split; reflexivity.
  - destruct item as [| | | | |items|fields];
      unfold sharedDataFilter, tagged; simpl; try discriminate.
    intro H. injection H as H. apply strict_eq_VStr in H.
    split; [|split; reflexivity].
    destruct items as [|x rest]; simpl in H; [discriminate|].
    exists rest. now subst.
Qed.

Lemma X1_filters_witness :
  truthy postDescriptor = true
  /\ storyDataFilter postDescriptor = Ok false
  /\ sharedDataFilter postDescriptor = Ok false.
Proof.
  destruct (proj1 (proj2 (X1_filters_exclusive postDescriptor)) eq_refl)
    as (_ & Ht & Hs & Hsh).
  repeat split; assumption.
Defined.

(** ** The classification of a page *)

Lemma first_match_cons (x : value) (rest : list value) :
  first_match (x :: rest) = x.
Proof. reflexivity. Qed.

Lemma postDataFilter_truthy (item : value) :
  postDataFilter item = Ok true -> truthy item = true.
Proof.
  destruct item; unfold postDataFilter; simpl; try discriminate; reflexivity.
Qed.

Lemma storyDataFilter_truthy (item : value) :
  storyDataFilter item = Ok true -> truthy item = true.
Proof.
  destruct item; unfold storyDataFilter; simpl; try discriminate; reflexivity.
Qed.

(** X2.  When the searchers return only what their filters accept, the
    [switch] of lines 158-221 decides by the matches alone: the first post
    match is resolved as a post whenever there is one, whatever the story
    searcher found; the first story match is resolved as a story when
    there is no post match, with no failure from line 155; and the page
    is unhandled when both searchers found nothing. *)
Theorem X2_classification_by_matches :
  forall (W : World) (details : value) (requests : list string),
    searchers_obey W ->
    (forall p rest,
        findPostData W details = p :: rest ->
        fetchRawMedia W details requests
        = bind (lift (initial_title p))
               (fun title => post_branch W title p) requests)
    /\ (forall s rest,
           findPostData W details = [] ->
           findStoryData W details = s :: rest ->
           fetchRawMedia W details requests = story_branch W s requests)
    /\ (findPostData W details = [] ->
        findStoryData W details = [] ->
        fetchRawMedia W details requests
        = (Throw (Error "Unhandled page type"), requests)).
Proof.
  intros W details requests Hobey. split; [|split].
  - intros p rest Hp.
    assert (Ht : truthy (first_match (findPostData W details)) = true).
    { rewrite Hp, first_match_cons. apply postDataFilter_truthy.
      apply (proj1 (Hobey details p)). rewrite Hp. now left. }
    rewrite (fetchRawMedia_post W details requests Ht).
    now rewrite Hp, first_match_cons.
  - intros s rest Hp Hs. unfold fetchRawMedia.
    rewrite Hp, Hs, first_match_cons.
    change (first_match []) with VUndef.
    change (initial_title VUndef) with (@Ok value VNull).
    rewrite bind_lift_ok.
    change (truthy VUndef) with false. cbv iota.
    rewrite (storyDataFilter_truthy s); [reflexivity|].
    apply (proj2 (Hobey details s)). rewrite Hs. now left.
  - intros Hp Hs. apply fetchRawMedia_unhandled.
    + now rewrite Hp.
    + now rewrite Hs.
Qed.

Lemma two_pages_obey : searchers_obey two_pages.
Proof.
  intros details item. split; simpl.
  - destruct (strict_eq details _); simpl; [|tauto].
    intros [<-|[]]. reflexivity.
  - tauto.
Qed.

Lemma X2_classification_witness :
  fetchRawMedia two_pages (VStr "https://www.instagram.com/p/abc/") []
  = bind (lift (initial_title postDescriptor))
         (fun title => post_branch two_pages title postDescriptor) []
  /\ fetchRawMedia two_pages (VStr "https://www.instagram.com/about/") []
     = (Throw (Error "Unhandled page type"), []).
Proof.
  split.
  - exact (proj1 (X2_classification_by_matches
                    two_pages (VStr "https://www.instagram.com/p/abc/") []
                    two_pages_obey)
                 postDescriptor [] eq_refl).
  - exact (proj2 (proj2 (X2_classification_by_matches
                    two_pages (VStr "https://www.instagram.com/about/") []
                    two_pages_obey))
                 eq_refl eq_refl).
Defined.

(** ** The requests of a resolution *)

Section Requests.
Variable W : World.
Variable P : string -> Prop.

Lemma requests_bounded_lift {A} (n : nat) (o : outcome A) :
  requests_bounded n P (lift o).
Proof.
  intros requests out requests' H. unfold lift in H. injection H as _ <-.
  exists []. rewrite app_nil_r. repeat split; [simpl; lia|constructor].
Qed.

Lemma requests_bounded_bind_lift {A B} (n : nat) (o : outcome A)
      (k : A -> M (list string) B) :
  (forall a, requests_bounded n P (k a)) ->
  requests_bounded n P (bind (lift o) k).
Proof.
  intros Hk requests out requests' H. destruct o as [a|e].
  - rewrite bind_lift_ok in H. exact (Hk a _ _ _ H).
  - rewrite bind_lift_throw in H. injection H as _ <-.
    exists []. rewrite app_nil_r. repeat split; [simpl; lia|constructor].
Qed.

Lemma requests_bounded_bind_quiet {A B} (n : nat) (c : M (list string) A)
      (k : A -> M (list string) B) :
  requests_bounded n P c ->
  (forall a, requests_bounded 0 P (k a)) ->
  requests_bounded n P (bind c k).
Proof.
  intros Hc Hk requests out requests' H. unfold bind in H.
  destruct (c requests) as [[a|e] s1] eqn:E.
  - destruct (Hc _ _ _ E) as (m1 & -> & L1 & F1).
    destruct (Hk a _ _ _ H) as (m2 & -> & L2 & F2).
    destruct m2; [|simpl in L2; lia].
    exists m1. rewrite app_nil_r. auto.
  - injection H as _ <-. exact (Hc _ _ _ E).
Qed.

Lemma requests_bounded_bind_fetch {B} (u : string)
      (k : value -> M (list string) B) :
  P u ->
  (forall a, requests_bounded 0 P (k a)) ->
  requests_bounded 1 P (bind (page_fetch W u) k).
Proof.
  intros Hu Hk. apply requests_bounded_bind_quiet; [|exact Hk].
  intros requests out requests' H. unfold page_fetch in H.
  injection H as _ <-. exists [u]. repeat split; [simpl; lia|].
  constructor; [exact Hu|constructor].
Qed.

Lemma requests_bounded_weaken {A} (n m : nat) (c : M (list string) A) :
  n <= m -> requests_bounded n P c -> requests_bounded m P c.
Proof.
  intros Hnm Hc requests out requests' H.
  destruct (Hc _ _ _ H) as (made & -> & L & F).
  exists made. repeat split; [lia|exact F].
Qed.

End Requests.

Ltac quiet :=
  repeat first
    [ progress cbv zeta
    | apply requests_bounded_bind_lift; intros ?
    | apply requests_bounded_lift
    | apply (requests_bounded_lift _ 0 (Ok _))
    | match goal with
      | |- requests_bounded _ _ (ret ?a) => apply (requests_bounded_lift _ 0 (Ok a))
      | |- requests_bounded _ _ (throw ?e) =>
          apply (requests_bounded_lift _ _ (Throw e))
      | |- requests_bounded _ _ (if ?b then _ else _) => destruct b
      end ].

Lemma post_branch_bounded (W : World) (title postData : value) :
  requests_bounded 1 is_endpoint (post_branch W title postData).
Proof.
  unfold post_branch.
  do 4 (apply requests_bounded_bind_lift; intros ?).
  apply requests_bounded_bind_fetch; [left; eexists; reflexivity|].
  intros data. quiet.
Qed.

Lemma story_branch_bounded (W : World) (storyData : value) :
  requests_bounded 1 is_endpoint (story_branch W storyData).
Proof.
  unfold story_branch.
  do 5 (apply requests_bounded_bind_lift; intros ?).
  apply requests_bounded_bind_fetch; [right; eexists; reflexivity|].
  intros data. quiet.
Qed.

Lemma fetchRawMedia_bounded (W : World) (details : value) :
  requests_bounded 1 is_endpoint (fetchRawMedia W details).
Proof.
  unfold fetchRawMedia.
  apply requests_bounded_bind_lift; intros title.
  destruct (truthy (first_match (findPostData W details)));
    [apply post_branch_bounded|].
  destruct (truthy (first_match (findStoryData W details)));
    [apply story_branch_bounded|].
  apply (requests_bounded_lift _ _ (Throw _)).
Qed.

Lemma computeForLink_bounded (W : World) (link : string) :
  requests_bounded 1 is_endpoint (computeForLink W link).
Proof.
  unfold computeForLink.
  apply requests_bounded_bind_lift; intros details.
  apply requests_bounded_bind_quiet; [apply fetchRawMedia_bounded|].
  intros [[title url] rawMedia].
  apply requests_bounded_bind_lift; intros media.
  unfold finish. destruct (Nat.eqb (length media) 0).
  - apply (requests_bounded_lift _ _ (Throw _)).
  - apply (requests_bounded_lift _ 0 (Ok _)).
Qed.

(** X3.  A resolution makes at most one request, whatever the page and
    the responses are, and never to anything but the media-info endpoint
    or the reel endpoint: nothing is retried. *)
Theorem X3_at_most_one_request :
  forall (W : World) (link : string) (requests requests' : list string)
         (out : outcome ResolvedContent.t),
    computeForLink W link requests = (out, requests') ->
    exists made,
      requests' = requests ++ made
      /\ length made <= 1
      /\ Forall is_endpoint made.
Proof.
  intros W link requests requests' out H.
  exact (computeForLink_bounded W link requests out requests' H).
Qed.

Lemma X3_one_request_witness :
  exists made,
    ["earlier"; "https://i.instagram.com/api/v1/media/123/info/"]
    = ["earlier"] ++ made
    /\ length made <= 1
    /\ Forall is_endpoint made.
Proof.
  exact (X3_at_most_one_request
           (page_with [postDescriptor] [] (Ok postResponse)) "l"
           ["earlier"] _ _ eq_refl).
Defined.

(** ** Resolutions, step by step *)


Lemma find_item_none (callback : value -> outcome bool) (items : list value) :
  (forall x, In x items -> callback x = Ok false) ->
  find_item callback items = Ok VUndef.
Proof.
  intro H. induction items as [|x items IH]; simpl; [reflexivity|].
  rewrite (H x (or_introl eq_refl)). apply IH.
  intros y Hy. apply H. now right.
Qed.






(** ** Failures *)


Lemma quiet_snd {A} (P : string -> Prop) (c : M (list string) A)
      (requests : list string) :
  requests_bounded 0 P c -> snd (c requests) = requests.
Proof.
  intro H. destruct (c requests) as [out requests'] eqn:E.
  destruct (H requests out requests' E) as (made & -> & L & _).
  destruct made; [simpl; now rewrite app_nil_r|simpl in L; lia].
Qed.

Lemma snd_fetch_then_quiet {B} (W : World) (u : string)
      (k : value -> M (list string) B) (requests : list string) :
  (forall data, requests_bounded 0 (fun _ => True) (k data)) ->
  snd (bind (page_fetch W u) k requests) = requests ++ [u].
Proof.
  intro Hk. rewrite bind_page_fetch.
  destruct (fetch_json W u) as [data|e]; [|reflexivity].
  exact (quiet_snd (fun _ => True) (k data) (requests ++ [u]) (Hk data)).
Qed.

Ltac early_TypeError E :=
  right; rewrite bind_lift_throw; now rewrite (get_throws _ _ _ E).

(** X7.  No request is made for a descriptor whose id cannot be read.  A
    post either makes exactly one request, which is the one to the
    media-info endpoint of [postData.rootView.props.media_id] when that id
    is a value that the conversion to a string renders exactly, or fails
    with [TypeError] before any request; a story likewise with the reel
    endpoint of [storyData.rootView.props.user.id]. *)
Theorem X7_request_or_early_TypeError :
  forall (W : World) (title descriptor : value) (requests : list string),
    ((exists rootView props media_id u,
         get descriptor "rootView" = Ok rootView
         /\ get rootView "props" = Ok props
         /\ get props "media_id" = Ok media_id
         /\ snd (post_branch W title descriptor requests) = requests ++ [u]
         /\ (renders_exactly media_id = true -> u = media_info_url media_id))
     \/ post_branch W title descriptor requests = (Throw TypeError, requests))
    /\
    ((exists rootView props owner userId u,
         get descriptor "rootView" = Ok rootView
         /\ get rootView "props" = Ok props
         /\ get props "user" = Ok owner
         /\ get owner "id" = Ok userId
         /\ snd (story_branch W descriptor requests) = requests ++ [u]
         /\ (renders_exactly userId = true -> u = reels_media_url userId))
     \/ story_branch W descriptor requests = (Throw TypeError, requests)).
Proof.
  intros W title descriptor requests. split.
  - unfold post_branch.
    destruct (get descriptor "url") as [path|e] eqn:Eu;
      [rewrite bind_lift_ok|early_TypeError Eu].
    destruct (get descriptor "rootView") as [rootView|e] eqn:Er;
      [rewrite bind_lift_ok|early_TypeError Er].
    destruct (get rootView "props") as [props|e] eqn:Ep;
      [rewrite bind_lift_ok|early_TypeError Ep].
    destruct (get props "media_id") as [media_id|e] eqn:Ei;
      [rewrite bind_lift_ok|early_TypeError Ei].
    left. exists rootView, props, media_id, (media_info_url media_id).
    repeat (split; [first [reflexivity|assumption]|]).
    split; [|reflexivity].
    apply snd_fetch_then_quiet. intro data. quiet.
  - unfold story_branch.
    destruct (get descriptor "url") as [path|e] eqn:Eu;
      [rewrite bind_lift_ok|early_TypeError Eu].
    destruct (get descriptor "rootView") as [rootView|e] eqn:Er;
      [rewrite bind_lift_ok|early_TypeError Er].
    destruct (get rootView "props") as [props|e] eqn:Ep;
      [rewrite bind_lift_ok|early_TypeError Ep].
    destruct (get props "user") as [owner|e] eqn:Eo;
      [rewrite bind_lift_ok|early_TypeError Eo].
    destruct (get owner "id") as [userId|e] eqn:Ei;
      [rewrite bind_lift_ok|early_TypeError Ei].
    left. exists rootView, props, owner, userId, (reels_media_url userId).
    repeat (split; [first [reflexivity|assumption]|]).
    split; [|reflexivity].
    apply snd_fetch_then_quiet. intro data. cbv zeta. quiet.
Qed.

Lemma X7_request_witness :
  snd (post_branch (page_with [postDescriptor] [] (Ok postResponse))
                   VNull postDescriptor [])
  = ["https://i.instagram.com/api/v1/media/123/info/"].
Proof.
  destruct (proj1 (X7_request_or_early_TypeError
                     (page_with [postDescriptor] [] (Ok postResponse))
                     VNull postDescriptor []))
    as [(rootView & props & media_id & u & Hroot & Hprops & Hid & Hsnd & Hu)
       |Hpost].
  - cbv in Hroot. injection Hroot as <-.
    cbv in Hprops. injection Hprops as <-.
    cbv in Hid. injection Hid as <-.
    rewrite (Hu eq_refl) in Hsnd. exact Hsnd.
  - discriminate Hpost.
Defined.





(** ** Computations independent of the log *)

Lemma log_independent_lift {L A} (o : outcome A) :
  log_independent (@lift (list L) A o).
Proof. intro log. unfold lift. simpl. now rewrite app_nil_r. Qed.

Lemma log_independent_bind {L A B} (c : M (list L) A) (k : A -> M (list L) B) :
  log_independent c -> (forall a, log_independent (k a)) ->
  log_independent (bind c k).
Proof.
  intros Hc Hk log. unfold bind. rewrite (Hc log).
  destruct (c []) as [[a|e] made]; simpl.
  - rewrite (Hk a (log ++ made)), (Hk a made). simpl. now rewrite app_assoc.
  - reflexivity.
Qed.

Lemma log_independent_page_fetch (W : World) (u : string) :
  log_independent (page_fetch W u).
Proof. intro log. reflexivity. Qed.

Ltac independent :=
  repeat first
    [ progress cbv zeta
    | apply log_independent_bind; [|intros ?]
    | apply log_independent_lift
    | apply log_independent_page_fetch
    | match goal with
      | |- log_independent (ret ?a) => apply (log_independent_lift (Ok a))
      | |- log_independent (throw ?e) => apply (log_independent_lift (Throw e))
      | |- log_independent (if ?b then _ else _) => destruct b
      end ].

Lemma log_independent_fetchRawMedia (W : World) (details : value) :
  log_independent (fetchRawMedia W details).
Proof. unfold fetchRawMedia, post_branch, story_branch. independent. Qed.

Lemma log_independent_finish (title url : value) (media : list MediaDescriptor) :
  log_independent (finish title url media).
Proof. unfold finish. independent. Qed.

Lemma finish_no_request (title url : value) (media : list MediaDescriptor)
      (log : list string) :
  snd (finish title url media log) = log.
Proof. unfold finish. now destruct (Nat.eqb (length media) 0). Qed.

Lemma log_independent_computeForLink (W : World) (link : string) :
  log_independent (computeForLink W link).
Proof.
  unfold computeForLink.
  apply log_independent_bind; [apply log_independent_lift|intros details].
  apply log_independent_bind;
    [apply log_independent_fetchRawMedia|intros [[title url] rawMedia]].
  apply log_independent_bind; [apply log_independent_lift|intros media].
  apply log_independent_finish.
Qed.

(** ** The page under [radash.defer] *)

Lemma fetches_app (t1 t2 : list event) :
  fetches (t1 ++ t2) = fetches t1 ++ fetches t2.
Proof.
  induction t1 as [|e t1 IH]; simpl; [reflexivity|].
  destruct e; simpl; now rewrite ?IH.
Qed.

Lemma fetches_map_Fetch (requests : list string) :
  fetches (map Fetch requests) = requests.
Proof. induction requests; simpl; now rewrite ?IHrequests. Qed.

Lemma fetchRawMedia_on_browser (W : World) (B : Browser) (details : value) :
  fetchRawMedia (on_browser W B) details = fetchRawMedia W details.
Proof. reflexivity. Qed.

Ltac same_settlement :=
  simpl; split;
  [ reflexivity
  | rewrite ?fetches_app, ?fetches_map_Fetch; simpl;
    rewrite ?app_nil_r; reflexivity ].

Lemma computeForLinkOnPage_settles (B : Browser) (W : World) (link : string)
      (trace : list event) :
  fst (computeForLinkOnPage B W link trace)
  = deferred_outcome (fst (computeForLink (on_browser W B) link []))
  /\ fetches (snd (computeForLinkOnPage B W link trace))
     = fetches trace ++ snd (computeForLink (on_browser W B) link []).
Proof.
  unfold computeForLink, computeForLinkOnPage.
  change (page_details (on_browser W B) link) with (details_of B link).
  unfold details_of, defer.
  destruct (newPage B) as [[]|e1].
  2:{ unfold bind, step, call, lift, deferred_outcome. simpl.
      destruct (thrown_truthy e1); same_settlement. }
  destruct (goto B link) as [[]|e2].
  2:{ unfold bind, step, call, lift, register, deferred_outcome. simpl.
      destruct (thrown_truthy e2); same_settlement. }
  destruct (evaluate B link) as [payloads|e3].
  2:{ unfold bind, step, call, lift, register, deferred_outcome. simpl.
      destruct (thrown_truthy e3); same_settlement. }
  rewrite bind_lift_ok. rewrite fetchRawMedia_on_browser.
  unfold bind, step, call, lift, register, requesting, deferred_outcome. simpl.
  destruct (fetchRawMedia W (VArr (flat1 payloads)) []) as [[[[title url] rawMedia]|e] requests].
  2:{ simpl. destruct (thrown_truthy e); same_settlement. }
  simpl. destruct (flatten rawMedia) as [media|e].
  2:{ simpl. destruct (thrown_truthy e); same_settlement. }
  simpl. rewrite (finish_no_request title url media requests).
  rewrite (finish_no_request title url media []).
  unfold finish. destruct (Nat.eqb (length media) 0); same_settlement.
Qed.

(** X11.  [computeForLink] run on its page under [radash.defer] settles
    as the resolution does on the details read through the browser: the
    same result, the same error rethrown when it is truthy (every error
    object is), and the same requests in the same order.  The details are
    the script payloads flattened by one level. *)
Theorem X11_deferred_resolution_agrees :
  forall (B : Browser) (W : World) (link : string) (trace : list event),
    fst (computeForLinkOnPage B W link trace)
    = deferred_outcome (fst (computeForLink (on_browser W B) link []))
    /\ fetches (snd (computeForLinkOnPage B W link trace))
       = fetches trace ++ snd (computeForLink (on_browser W B) link [])
    /\ (forall requests,
           computeForLink (on_browser W B) link requests
           = (fst (computeForLink (on_browser W B) link []),
              requests ++ snd (computeForLink (on_browser W B) link []))).
Proof.
  intros B W link trace.
  destruct (computeForLinkOnPage_settles B W link trace) as [H1 H2].
  split; [exact H1|]. split; [exact H2|].
  apply log_independent_computeForLink.
Qed.

(** ** Failures under [radash.defer] *)



(** ** The page is released *)

Lemma records_only_step_call {A} (P : event -> Prop) (e : event) (o : outcome A) :
  P e -> records_only P (step (call e o)).
Proof.
  intros He st. exists [e]. split; [reflexivity|].
  constructor; [exact He|constructor].
Qed.

Lemma records_only_step_requesting {A} (P : event -> Prop)
      (c : M (list string) A) :
  (forall u, P (Fetch u)) -> records_only P (step (requesting c)).
Proof.
  intros Hu st. exists (map Fetch (snd (c []))). split; [reflexivity|].
  apply Forall_forall. intros e He. apply in_map_iff in He.
  destruct He as (u & <- & _). apply Hu.
Qed.

Lemma records_only_step_lift {A} (P : event -> Prop) (o : outcome A) :
  records_only P (step (lift o)).
Proof.
  intros st. exists []. split; [|constructor].
  unfold step, lift. simpl. now rewrite app_nil_r.
Qed.

Lemma records_only_bind {A B} (P : event -> Prop) (c : Deferred A)
      (k : A -> Deferred B) :
  records_only P c -> (forall a, records_only P (k a)) ->
  records_only P (bind c k).
Proof.
  intros Hc Hk st. unfold bind.
  destruct (Hc st) as (m1 & E1 & F1).
  destruct (c st) as [[a|e] st1]; simpl in E1; subst st1.
  - destruct (Hk a (fst st ++ m1, snd st)) as (m2 & E2 & F2).
    exists (m1 ++ m2). simpl in E2. rewrite E2, app_assoc.
    split; [reflexivity|]. apply Forall_app. now split.
  - exists m1. now split.
Qed.

Lemma occurrences_none (P : event -> bool) (trace : list event) :
  Forall (fun e => P e = false) trace -> occurrences P trace = 0.
Proof.
  induction 1 as [|e trace He _ IH]; simpl; [reflexivity|].
  now rewrite He, IH.
Qed.

Lemma occurrences_app (P : event -> bool) (t1 t2 : list event) :
  occurrences P (t1 ++ t2) = occurrences P t1 + occurrences P t2.
Proof.
  induction t1 as [|e t1 IH]; simpl; [reflexivity|]. rewrite IH. lia.
Qed.

Lemma defer_after_register {A} (e1 : event) (callback : M (list event) unit)
      (rest : Deferred A) (trace : list event) :
  snd (defer (step (call e1 (Ok tt)) ;;; register callback ;;; rest) trace)
  = run_callbacks (snd (snd (rest (trace ++ [e1], [callback]))))
                  (fst (snd (rest (trace ++ [e1], [callback])))).
Proof.
  unfold defer, bind, step, call, register. simpl.
  destruct (rest (trace ++ [e1], [callback])) as [[a|e] st]; simpl;
    [|destruct (thrown_truthy e)]; reflexivity.
Qed.

(** X10.  The page of a resolution is released exactly once on every exit
    path.  When [browser.newPage()] fails nothing else is done and no
    page is closed; when it succeeds, [page.close()] is called exactly
    once, as the last action, whether the resolution returned or threw
    and wherever it threw. *)
Theorem X10_page_closed_exactly_once :
  forall (B : Browser) (W : World) (link : string) (trace : list event),
    (forall e, newPage B = Throw e ->
               snd (computeForLinkOnPage B W link trace) = trace ++ [NewPage])
    /\ (newPage B = Ok tt ->
        exists middle,
          snd (computeForLinkOnPage B W link trace)
          = trace ++ NewPage :: middle ++ [ClosePage]
          /\ occurrences is_ClosePage middle = 0).
Proof.
  intros B W link trace. unfold computeForLinkOnPage. split.
  - intros e He. rewrite He. unfold defer, bind, step, call. simpl.
    now destruct (thrown_truthy e).
  - intro Hn. rewrite Hn. rewrite defer_after_register.
    match goal with
    | |- context [snd (snd (?rest ?st))] =>
        assert (Hrest : records_only not_ClosePage rest);
        [|destruct (Hrest st) as (middle & E & F)]
    end.
    { apply records_only_bind;
        [apply records_only_step_call; reflexivity|intros _].
      apply records_only_bind;
        [apply records_only_step_call; reflexivity|intros payloads].
      apply records_only_bind;
        [apply records_only_step_requesting; reflexivity
        |intros [[title url] rawMedia]].
      apply records_only_bind; [apply records_only_step_lift|intros media].
      apply records_only_step_requesting; reflexivity. }
    rewrite E. simpl. exists middle. split.
    + unfold call. simpl. now rewrite <- !app_assoc.
    + apply occurrences_none. exact F.
Qed.

Lemma X10_page_closed_witness :
  exists middle,
    snd (computeForLinkOnPage
           (sample_browser [VArr []])
           (page_with [postDescriptor] [] (Throw (Error "socket hang up")))
           "l" [])
    = [] ++ NewPage :: middle ++ [ClosePage]
    /\ occurrences is_ClosePage middle = 0.
Proof.
  exact (proj2 (X10_page_closed_exactly_once
                  (sample_browser [VArr []])
                  (page_with [postDescriptor] []
                             (Throw (Error "socket hang up")))
                  "l" []) eq_refl).
Defined.

(** ** The program's body *)

Ltac program_cases env X :=
  unfold main, obtainBrowser, defer, browser_obtained, cleanup_of, remote;
  destruct (createGmail X) as [[]|e1];
  destruct (createPuppeteer X) as [[]|e2];
  destruct (strict_eq (PUPPETEER_REMOTE_URL env) VUndef);
  destruct (connect X) as [[]|e3];
  destruct (launch X) as [[]|e4];
  destruct (login X) as [[]|e5];
  destruct (processRequests X) as [[]|e6];
  unfold bind, step, call, register; simpl;
  repeat match goal with
         | |- context [thrown_truthy ?e] => destruct (thrown_truthy e)
         end;
  simpl; rewrite <- ?app_assoc; simpl.

(** X12.  The browser is given up exactly once, at the very end, by the
    callback registered for it, whatever happens after it was obtained: a
    remote browser ([PUPPETEER_REMOTE_URL] set) is closed, a launched one
    is disconnected.  When no browser was obtained, nothing is closed or
    disconnected. *)
Theorem X12_browser_cleanup :
  forall (env : Env) (X : System) (trace : list event),
    exists made,
      snd (main env X trace) = trace ++ made
      /\ (browser_obtained env X ->
          last made NewPage = cleanup_of env
          /\ occurrences is_cleanup made = 1)
      /\ (~ browser_obtained env X -> occurrences is_cleanup made = 0).
Proof.
  intros env X trace.
  program_cases env X;
    (eexists; split; [reflexivity|]);
    (split;
     [ intros (H1 & H2 & H3); try discriminate; split; reflexivity
     | intro Hn; try reflexivity; exfalso; apply Hn; repeat split ]).
Qed.

Lemma main_trace_order (env : Env) (X : System) (trace : list event) :
  exists made,
    snd (main env X trace) = trace ++ made
    /\ (forall n, In (ProcessRequests n) made ->
                  n = 4 /\ browser_obtained env X /\ login X = Ok tt)
    /\ (forall u p, In (Login u p) made ->
                    browser_obtained env X
                    /\ u = IG_USERNAME env /\ p = IG_PASSWORD env)
    /\ (forall url, In (Connect url) made ->
                    remote env = true /\ url = PUPPETEER_REMOTE_URL env)
    /\ (forall path args dir, In (Launch path args dir) made ->
                              remote env = false).
Proof.
  program_cases env X;
    (eexists; split; [reflexivity|]);
    repeat split;
    try (intros; simpl in *;
         repeat match goal with
                | H : _ \/ _ |- _ => destruct H
                | H : False |- _ => destruct H
                | H : _ /\ _ |- _ => destruct H
                end;
         try discriminate; try congruence;
         match goal with
         | H : ProcessRequests _ = ProcessRequests _ |- _ =>
             injection H as <-; reflexivity
         | H : Login _ _ = Login _ _ |- _ => now injection H
         | H : Connect _ = Connect _ |- _ => now injection H
         | _ => reflexivity
         end).
Qed.

Lemma main_settles (env : Env) (X : System) (trace : list event) :
  fst (main env X trace)
  = match first_failure env X with
    | Some e => if thrown_truthy e then Throw e else Ok None
    | None => Ok (Some tt)
    end.
Proof.
  unfold first_failure. program_cases env X; reflexivity.
Qed.

(** X13.  The steps of the program run in order and stop at the first
    failure.  Links are processed only after a successful login, with the
    concurrency of line 262; login is attempted only with a browser in
    hand and with the configured credentials; the browser is connected to
    and never launched when [PUPPETEER_REMOTE_URL] is set, and launched
    and never connected to otherwise; and the program rejects exactly
    when a step failed with a truthy error (every error object is), with
    the error of the first step that failed: it fulfils after a falsy
    rejection as it does when every step succeeded. *)
Theorem X13_program_order :
  forall (env : Env) (X : System) (trace : list event),
    exists made,
      snd (main env X trace) = trace ++ made
      /\ (forall n, In (ProcessRequests n) made ->
                    n = 4 /\ browser_obtained env X /\ login X = Ok tt)
      /\ (forall u p, In (Login u p) made ->
                      browser_obtained env X
                      /\ u = IG_USERNAME env /\ p = IG_PASSWORD env)
      /\ (forall url, In (Connect url) made ->
                      remote env = true /\ url = PUPPETEER_REMOTE_URL env)
      /\ (forall path args dir, In (Launch path args dir) made ->
                                remote env = false)
      /\ (forall e, fst (main env X trace) = Throw e
                    <-> first_failure env X = Some e /\ thrown_truthy e = true)
      /\ ((exists r, fst (main env X trace) = Ok r)
          <-> match first_failure env X with
              | Some e => thrown_truthy e = false
              | None => True
              end).
Proof.
  intros env X trace.
  destruct (main_trace_order env X trace)
    as (made & Hmade & Hprocess & Hlogin & Hconnect & Hlaunch).
  exists made. repeat (split; [assumption|]).
  rewrite (main_settles env X trace).
  destruct (first_failure env X) as [e0|].
  - destruct (thrown_truthy e0) eqn:Etruthy; split.
    + intro e. split.
      * intro H. injection H as <-. now split.
      * intros [H _]. now injection H as <-.
    + split; [intros [r H]; discriminate H|discriminate].
    + intro e. split; [discriminate|].
      intros [H Ht]. injection H as <-. congruence.
    + split; [reflexivity|]. intros _. now exists None.
  - split.
    + intro e. split; [discriminate|]. intros [H _]. discriminate H.
    + split; [trivial|]. intros _. now exists (Some tt).
Qed.

Lemma X12_cleanup_witness :
  exists made,
    snd (main (sample_env VUndef)
              (sample_system (Throw (Error "bad login"))) []) = made
    /\ last made NewPage = DisconnectBrowser
    /\ occurrences is_cleanup made = 1.
Proof.
  destruct (X12_browser_cleanup
              (sample_env VUndef)
              (sample_system (Throw (Error "bad login"))) [])
    as (made & E & H & _).
  exists made. split; [exact E|].
  apply H. repeat split.
Defined.

Lemma X13_order_witness :
  exists made,
    snd (main (sample_env (VStr "http://browser:9222"))
              (sample_system (Ok tt)) []) = made
    /\ In (ProcessRequests 4) made
    /\ login (sample_system (Ok tt)) = Ok tt.
Proof.
  destruct (X13_program_order
              (sample_env (VStr "http://browser:9222"))
              (sample_system (Ok tt)) [])
    as (made & E & H & _).
  exists made. split; [exact E|].
  assert (Hin : In (ProcessRequests 4) made).
  { simpl in E. rewrite <- E. simpl. tauto. }
  split; [exact Hin|]. exact (proj2 (proj2 (H 4 Hin))).
Defined.

(** ** [PUPPETEER_ARGS] *)

Lemma split_spaces_cons (s cur : string) :
  exists p rest, split_spaces s cur = p :: rest.
Proof.
  revert cur. induction s as [|c s IH]; intro cur; simpl.
  - now exists cur, [].
  - destruct (Ascii.eqb c " "%char); [now exists cur, (split_spaces s EmptyString)|].
    apply IH.
Qed.

Lemma join_spaces_cons (p : string) (l : list string) :
  l <> [] -> join_spaces (p :: l) = (p ++ " " ++ join_spaces l)%string.
Proof. destruct l; [congruence|reflexivity]. Qed.

Lemma join_split_spaces (s cur : string) :
  join_spaces (split_spaces s cur) = (cur ++ s)%string.
Proof.
  revert cur. induction s as [|c s IH]; intro cur; simpl.
  - now rewrite string_app_nil_r.
  - destruct (Ascii.eqb c " "%char) eqn:E.
    + apply Ascii.eqb_eq in E. subst c.
      destruct (split_spaces_cons s EmptyString) as (p & rest & Hs).
      rewrite join_spaces_cons by (rewrite Hs; discriminate).
      now rewrite IH.
    + rewrite IH, string_app_assoc. reflexivity.
Qed.

Lemma length_split_spaces (s cur : string) :
  length (split_spaces s cur) = S (count_spaces s).
Proof.
  revert cur. induction s as [|c s IH]; intro cur; simpl; [reflexivity|].
  destruct (Ascii.eqb c " "%char); simpl; now rewrite IH.
Qed.

Lemma count_spaces_app (a b : string) :
  count_spaces (a ++ b) = count_spaces a + count_spaces b.
Proof.
  induction a as [|x a IH]; simpl; [reflexivity|]. rewrite IH. lia.
Qed.

Lemma split_spaces_no_space (s cur : string) :
  count_spaces cur = 0 ->
  Forall (fun p => count_spaces p = 0) (split_spaces s cur).
Proof.
  revert cur. induction s as [|c s IH]; intros cur Hc; simpl.
  - constructor; [exact Hc|constructor].
  - destruct (Ascii.eqb c " "%char) eqn:E.
    + constructor; [exact Hc|]. now apply IH.
    + apply IH. rewrite count_spaces_app. simpl. rewrite E. lia.
Qed.

Lemma strings_of_map_VStr (l : list string) :
  strings_of (map VStr l) = Some l.
Proof. induction l as [|s l IH]; simpl; [reflexivity|now rewrite IH]. Qed.

Lemma parseArgs_string (s : string) :
  parseArgs (VStr s) = Some (Some (split_spaces s EmptyString)).
Proof. unfold parseArgs, preprocessArgs. now rewrite strings_of_map_VStr. Qed.

(** X14.  A [PUPPETEER_ARGS] given as a string always validates, as the
    pieces between its spaces: joining the arguments with a space gives
    the string back, there is one argument more than there are spaces (so
    the empty string yields one empty argument, and two spaces in a row
    an empty argument between them), and no argument holds a space. *)
Theorem X14_args_split :
  forall s : string,
    parseArgs (VStr s) = Some (Some (split_spaces s EmptyString))
    /\ join_spaces (split_spaces s EmptyString) = s
    /\ length (split_spaces s EmptyString) = S (count_spaces s)
    /\ Forall (fun arg => count_spaces arg = 0) (split_spaces s EmptyString).
Proof.
  intro s. split; [|split; [|split]].
  - apply parseArgs_string.
  - apply join_split_spaces.
  - apply length_split_spaces.
  - now apply split_spaces_no_space.
Qed.

Lemma strings_of_inv (items : list value) (l : list string) :
  strings_of items = Some l -> items = map VStr l.
Proof.
  revert l. induction items as [|x items IH]; intros l H; simpl in H.
  - now injection H as <-.
  - destruct x; try discriminate.
    destruct (strings_of items) as [l'|]; [|discriminate].
    injection H as <-. simpl. now rewrite (IH l' eq_refl).
Qed.

(** X15.  The validation of [PUPPETEER_ARGS] accepts exactly three kinds
    of value: [undefined] (the variable is not set), a string, and an
    array all of whose elements are strings, which is kept as it is;
    anything else, an array holding a non-string among them, is
    rejected. *)
Theorem X15_args_accepted :
  forall v : value,
    (parseArgs v <> None
     <-> v = VUndef \/ (exists s, v = VStr s) \/ (exists l, v = VArr (map VStr l)))
    /\ (forall l, parseArgs (VArr (map VStr l)) = Some (Some l)).
Proof.
  intro v. split.
  - split.
    + intro H. destruct v as [| | | | s | items | fields];
        try (now left); try (exfalso; apply H; reflexivity).
      * right. left. now exists s.
      * right. right. unfold parseArgs, preprocessArgs in H.
        destruct (strings_of items) as [l|] eqn:E; [|now destruct H].
        exists l. f_equal. now apply strings_of_inv.
    + intros [->|[(s & ->)|(l & ->)]].
      * discriminate.
      * rewrite parseArgs_string. discriminate.
      * unfold parseArgs, preprocessArgs. rewrite strings_of_map_VStr.
        discriminate.
  - intro l. unfold parseArgs, preprocessArgs. now rewrite strings_of_map_VStr.
Qed.

Lemma X15_args_witness :
  ~ parseArgs (VArr [VStr "--headless"; VNum 1]) <> None.
Proof.
  intro H.
  apply (proj1 (proj1 (X15_args_accepted
                         (VArr [VStr "--headless"; VNum 1])))) in H.
  destruct H as [H|[(s & H)|(l & H)]]; [discriminate H|discriminate H|].
  injection H as H. destruct l as [|a [|b l]]; discriminate H.
Defined.

(** ** The details of a page *)

Lemma flat1_app (xs ys : list value) :
  flat1 (xs ++ ys) = flat1 xs ++ flat1 ys.
Proof.
  induction xs as [|x xs IH]; simpl; [reflexivity|].
  destruct x; simpl; rewrite IH; try reflexivity. now rewrite app_assoc.
Qed.

Lemma flat1_arrays (requires : list (list value)) :
  flat1 (map VArr requires) = concat requires.
Proof.
  induction requires as [|r requires IH]; simpl; [reflexivity|now rewrite IH].
Qed.

(** X16.  The details searched for descriptors are the script payloads
    flattened by exactly one level: when every payload has a [require]
    array, they are the concatenation of those arrays in document order,
    the arrays nested inside them left as they are; a payload whose
    [require] is not an array stays in as one element; and a failure of
    [newPage], [goto] or [evaluate] is the failure of the whole step. *)
Theorem X16_details_one_level :
  forall (B : Browser) (link : string),
    newPage B = Ok tt ->
    goto B link = Ok tt ->
    (forall requires,
        evaluate B link = Ok (map VArr requires) ->
        details_of B link = Ok (VArr (concat requires)))
    /\ (forall before after x,
           evaluate B link = Ok (before ++ x :: after) ->
           (forall l, x <> VArr l) ->
           details_of B link = Ok (VArr (flat1 before ++ x :: flat1 after)))
    /\ (forall e, evaluate B link = Throw e -> details_of B link = Throw e).
Proof.
  intros B link Hn Hg. unfold details_of. rewrite Hn, Hg.
  split; [|split].
  - intros requires ->. now rewrite flat1_arrays.
  - intros before after x -> Hx. rewrite flat1_app. simpl.
    destruct x; try reflexivity. now destruct (Hx items).
  - now intros e ->.
Qed.

Lemma X16_details_witness :
  details_of (sample_browser [VArr [VArr [VNum 1]; VNum 2]; VArr [VStr "x"]]) "l"
  = Ok (VArr [VArr [VNum 1]; VNum 2; VStr "x"]).
Proof.
  exact (proj1 (X16_details_one_level
                  (sample_browser [VArr [VArr [VNum 1]; VNum 2]; VArr [VStr "x"]])
                  "l" eq_refl eq_refl)
               [[VArr [VNum 1]; VNum 2]; [VStr "x"]] eq_refl).
Defined.

(** ** The verification code *)

Lemma resolveVerificationCode_never_undefined (r : outcome value) :
  resolveVerificationCode r <> Ok VUndef
  /\ (r = Ok VUndef ->
      resolveVerificationCode r = Throw (Error "No verification code found"))
  /\ (forall code, r = Ok code -> code <> VUndef ->
                   resolveVerificationCode r = Ok code).
Proof.
  unfold resolveVerificationCode. split; [|split].
  - destruct r as [[]|e]; simpl; discriminate.
  - now intros ->.
  - intros code -> Hc. destruct code; simpl; congruence.
Qed.
